(** * gotsvis: fixed-step time series ([ts/time_series.go])

    A shallow embedding of package [ts] and the properties of its API.

    - [time.Duration] is an [int64]: a [Z] with the two's-complement
      wrap-around of Go's arithmetic written out ([Int64.wrap]).
    - [time.Time] is an instant counted in nanoseconds from the zero time
      [time.Time{}]; [Time.Sub] saturates at the [int64] range the way the
      standard library does.  The saturation of [Time.Add] at +-2^63
      seconds and the monotonic clock reading are not modelled.
    - [float64] is Rocq's primitive binary64 float.
    - [*TimeSeries], [*Iterator] and the backing arrays of slices live in an
      explicit heap; methods are computations in a state monad whose failure
      is a Go run-time panic. *)

From Stdlib Require Import ZArith Lia Floats.
From stdpp Require Import gmap strings list fin_maps.

Local Open Scope Z_scope.

(** ** Machine integers *)

Module Int64.

Definition min : Z := - 2 ^ 63.
Definition max : Z := 2 ^ 63 - 1.

Definition InRange (z : Z) : Prop := min <= z <= max.

(** Two's-complement reduction of an exact result. *)
Definition wrap (z : Z) : Z := (z + 2 ^ 63) mod 2 ^ 64 - 2 ^ 63.

(** Clamping, as [time.Time.Sub] does on overflow. *)
Definition sat (z : Z) : Z :=
  if z <? min then min else if max <? z then max else z.

Definition mul (a b : Z) : Z := wrap (a * b).
Definition neg (a : Z) : Z := wrap (- a).

End Int64.

(** ** The fragment of package [time] the program uses *)

Definition Duration := Z.

Module Time.

Definition t := Z.

(** [time.Time{}] *)
Definition zero : t := 0.

Definition IsZero (a : t) : bool := a =? zero.
Definition Before (a b : t) : bool := a <? b.
Definition After (a b : t) : bool := b <? a.
Definition Equal (a b : t) : bool := a =? b.
Definition Add (a : t) (d : Duration) : t := a + d.
Definition Sub (a b : t) : Duration := Int64.sat (a - b).

End Time.

(** ** Data model *)

Definition ptr := nat.

(** A slice value: [None] is the nil slice, [Some a] refers to the backing
    array at address [a].  No two slices of this package share a backing
    array, so length and capacity are those of the array. *)
Definition slice := option ptr.

Record TimeSeries := mkTimeSeries {
  key : string;
  start : Time.t;
  step : Duration;
  data : slice;
  filler : float
}.

Record Iterator := mkIterator {
  cursor : Time.t;
  series : ptr
}.

(** The [Transform] interface. *)
Record Transform := mkTransform {
  Name : string;
  TransformValue : float -> float
}.

Record Heap := mkHeap {
  objs : gmap ptr TimeSeries;
  arrs : gmap ptr (list float);
  iters : gmap ptr Iterator
}.

Definition empty_heap : Heap := mkHeap ∅ ∅ ∅.

Definition set_key (k : string) (s : TimeSeries) : TimeSeries :=
  mkTimeSeries k (start s) (step s) (data s) (filler s).
Definition set_data (d : slice) (s : TimeSeries) : TimeSeries :=
  mkTimeSeries (key s) (start s) (step s) d (filler s).
Definition set_cursor (c : Time.t) (i : Iterator) : Iterator :=
  mkIterator c (series i).

Definition with_objs (o : gmap ptr TimeSeries) (h : Heap) : Heap :=
  mkHeap o (arrs h) (iters h).
Definition with_arrs (a : gmap ptr (list float)) (h : Heap) : Heap :=
  mkHeap (objs h) a (iters h).
Definition with_iters (i : gmap ptr Iterator) (h : Heap) : Heap :=
  mkHeap (objs h) (arrs h) i.

(** The elements a slice denotes in a heap. *)
Definition contents (h : Heap) (s : slice) : option (list float) :=
  match s with
  | None => Some []
  | Some a => arrs h !! a
  end.

(** ** Computations: heap state and panics *)

Inductive result (A : Type) : Type :=
| Ok (a : A) (h : Heap)
| Panic (msg : string).
Arguments Ok {A} a h.
Arguments Panic {A} msg.

Definition M (A : Type) : Type := Heap -> result A.

Definition ret {A} (a : A) : M A := fun h => Ok a h.
Definition panic {A} (msg : string) : M A := fun _ => Panic msg.
Definition bind {A B} (m : M A) (k : A -> M B) : M B :=
  fun h => match m h with
           | Ok a h' => k a h'
           | Panic msg => Panic msg
           end.

Notation "'let*' x ':=' m 'in' k" := (bind m (fun x => k))
  (at level 10, x name, m at level 100, k at level 200).
Notation "m '>>' k" := (bind m (fun _ => k))
  (at level 100, k at level 200, right associativity).

Definition nil_deref : string := "invalid memory address or nil pointer dereference".
Definition out_of_range : string := "index out of range".
Definition bad_len : string := "makeslice: len out of range".
Definition div_by_zero : string := "integer divide by zero".

(** *** Objects *)

Definition getTS (p : ptr) : M TimeSeries :=
  fun h => match objs h !! p with
           | Some s => Ok s h
           | None => Panic nil_deref
           end.

Definition modTS (p : ptr) (f : TimeSeries -> TimeSeries) : M unit :=
  fun h => match objs h !! p with
           | Some s => Ok tt (with_objs (<[p := f s]> (objs h)) h)
           | None => Panic nil_deref
           end.

Definition newTS (s : TimeSeries) : M ptr :=
  fun h => let p := fresh (dom (objs h)) in
           Ok p (with_objs (<[p := s]> (objs h)) h).

Definition getIt (p : ptr) : M Iterator :=
  fun h => match iters h !! p with
           | Some i => Ok i h
           | None => Panic nil_deref
           end.

Definition modIt (p : ptr) (f : Iterator -> Iterator) : M unit :=
  fun h => match iters h !! p with
           | Some i => Ok tt (with_iters (<[p := f i]> (iters h)) h)
           | None => Panic nil_deref
           end.

Definition newIt (i : Iterator) : M ptr :=
  fun h => let p := fresh (dom (iters h)) in
           Ok p (with_iters (<[p := i]> (iters h)) h).

(** *** Slices *)

Definition alloc (l : list float) : M slice :=
  fun h => let a := fresh (dom (arrs h)) in
           Ok (Some a) (with_arrs (<[a := l]> (arrs h)) h).

(** [len(s)] *)
Definition len (s : slice) : M Z :=
  fun h => match contents h s with
           | Some l => Ok (Z.of_nat (length l)) h
           | None => Panic nil_deref
           end.

(** [make([]float64, n)]: panics on a negative length.  The limit the
    run time puts on the size of an allocation is not modelled. *)
Definition make (n : Z) : M slice :=
  if n <? 0 then panic bad_len
  else alloc (replicate (Z.to_nat n) 0%float).

Definition in_bounds (i : Z) (l : list float) : bool :=
  (0 <=? i) && (i <? Z.of_nat (length l)).

(** [s[i]] *)
Definition load (s : slice) (i : Z) : M float :=
  fun h => match contents h s with
           | Some l =>
               match l !! Z.to_nat i with
               | Some v => if in_bounds i l then Ok v h else Panic out_of_range
               | None => Panic out_of_range
               end
           | None => Panic nil_deref
           end.

(** [s[i] = v] *)
Definition store (s : slice) (i : Z) (v : float) : M unit :=
  fun h => match s with
           | None => Panic out_of_range
           | Some a =>
               match arrs h !! a with
               | Some l =>
                   if in_bounds i l
                   then Ok tt (with_arrs (<[a := <[Z.to_nat i := v]> l]> (arrs h)) h)
                   else Panic out_of_range
               | None => Panic nil_deref
               end
           end.

(** [append(s, vs...)].  Nothing is appended and [s] itself is returned when
    [vs] is empty; otherwise the result is a newly allocated array, which is
    what Go does whenever the capacity is exhausted and, as no backing array
    is shared, is indistinguishable from growing in place. *)
Definition append (s : slice) (vs : list float) : M slice :=
  match vs with
  | [] => ret s
  | _ => fun h => match contents h s with
                  | Some l => alloc (l ++ vs) h
                  | None => Panic nil_deref
                  end
  end.

(** [vs[i]] for the variadic argument, which is only read. *)
Definition arg_at (vs : list float) (i : Z) : M float :=
  match vs !! Z.to_nat i with
  | Some v => if in_bounds i vs then ret v else panic out_of_range
  | None => panic out_of_range
  end.

(** Division of [int64]s: truncated, panics on a zero divisor. *)
Definition quot64 (a b : Z) : M Z :=
  if b =? 0 then panic div_by_zero else ret (Int64.wrap (Z.quot a b)).

(** ** Construction *)

(** The three errors [NewTimeSeries] returns. *)
Inductive error : Type :=
| ErrStepZero
| ErrStartAfterEnd (start_ end_ : Time.t)
| ErrStepZeroUnequal.

(** The format strings of [fmt.Errorf]. *)
Definition error_format (e : error) : string :=
  match e with
  | ErrStepZero => "step can't be 0"
  | ErrStartAfterEnd _ _ => "start time %v can't be after end %v time"
  | ErrStepZeroUnequal => "step size can't be 0 if start != end time"
  end.

(** The loop [for i, _ := range ts.data] of [NewTimeSeries], from index [i]
    with [k] indices left. *)
Fixpoint fill_loop (p : ptr) (singleValue : bool) (fill : float)
    (values : list float) (i : Z) (k : nat) : M unit :=
  match k with
  | O => ret tt
  | S k' =>
      if singleValue then
        let* s := getTS p in
        store (data s) i fill >>
        fill_loop p singleValue fill values (i + 1) k'
      else if i <? Z.of_nat (length values) then
        let* v := arg_at values i in
        let* s := getTS p in
        store (data s) i v >>
        fill_loop p singleValue fill values (i + 1) k'
      else ret tt
  end.

(** [NewTimeSeries]; [now] is what [time.Now()] returns.  The result is the
    pair [(ts, nil)] as [inl ts] and [(nil, err)] as [inr err]. *)
Definition NewTimeSeries (now : Time.t) (key_ : string) (start_ end_ : Time.t)
    (step_ : Duration) (values : list float) : M (ptr + error) :=
  if step_ =? 0 then ret (inr ErrStepZero)
  else
    let singleValue := (length values =? 1)%nat in
    let filler_ := match values with [v] => v | _ => nan end in
    let start_ := if Time.IsZero start_ then now else start_ in
    let knownEnd := negb (Time.IsZero end_) in
    let bound := Time.Add start_ (Int64.mul (Z.of_nat (length values)) step_) in
    let end_ := if negb knownEnd && Time.Before end_ bound then bound else end_ in
    let* ts := newTS (mkTimeSeries key_ start_ step_ None filler_) in
    let* s := getTS ts in
    if Time.After (start s) end_ then ret (inr (ErrStartAfterEnd start_ end_))
    else if negb (Time.Equal (start s) end_) && (step s =? 0)
    then ret (inr ErrStepZeroUnequal)
    else
      let* size := quot64 (Time.Sub end_ (start s)) (step s) in
      let* d := make size in
      modTS ts (set_data d) >>
      let* s := getTS ts in
      let* n := len (data s) in
      fill_loop ts singleValue filler_ values 0 (Z.to_nat n) >>
      ret (inl ts).

Definition NewTimeSeriesOfTimeRange (now : Time.t) (key_ : string)
    (start_ end_ : Time.t) (step_ : Duration) (fill : float) : M (ptr + error) :=
  NewTimeSeries now key_ start_ (Time.Add end_ step_) step_ [fill].

Definition NewTimeSeriesOfLength (now : Time.t) (key_ : string)
    (start_ : Time.t) (step_ : Duration) (length_ : Z) (fill : float)
    : M (ptr + error) :=
  NewTimeSeries now key_ start_ (Time.Add start_ (Int64.mul length_ step_))
    step_ [fill].

Definition NewTimeSeriesOfData (now : Time.t) (key_ : string)
    (start_ : Time.t) (step_ : Duration) (data_ : list float) : M (ptr + error) :=
  NewTimeSeries now key_ start_ Time.zero step_ data_.

(** ** Accessors *)

Definition Key (p : ptr) : M string := let* s := getTS p in ret (key s).
Definition SetKey (p : ptr) (k : string) : M unit := modTS p (set_key k).
Definition Start (p : ptr) : M Time.t := let* s := getTS p in ret (start s).
Definition Step (p : ptr) : M Duration := let* s := getTS p in ret (step s).

Definition End (p : ptr) : M Time.t :=
  let* s := getTS p in
  let* n := len (data s) in
  ret (Time.Add (start s) (Int64.mul n (step s))).

(** The loop [for i, v := range ts.data { data[i] = v }] of [Data]. *)
Fixpoint copy_loop (src dst : slice) (i : Z) (k : nat) : M unit :=
  match k with
  | O => ret tt
  | S k' =>
      let* v := load src i in
      store dst i v >>
      copy_loop src dst (i + 1) k'
  end.

Definition Data (p : ptr) : M slice :=
  let* s := getTS p in
  let* n := len (data s) in
  let* d := make n in
  copy_loop (data s) d 0 (Z.to_nat n) >>
  ret d.

Definition Copy (p : ptr) : M ptr :=
  let* s := getTS p in
  let* d := Data p in
  newTS (mkTimeSeries (key s) (start s) (step s) d (filler s)).

Definition IsEqualStep (p other : ptr) : M bool :=
  let* s := getTS p in
  let* o := getTS other in
  ret (step s =? step o).

(** ** Range extension *)

(** [k] rounds of [ts.data = append(ts.data, ts.filler)]. *)
Fixpoint extend_loop (p : ptr) (k : nat) : M unit :=
  match k with
  | O => ret tt
  | S k' =>
      let* s := getTS p in
      let* d := append (data s) [filler s] in
      modTS p (set_data d) >>
      extend_loop p k'
  end.

Definition ExtendTo (p : ptr) (t : Time.t) : M unit :=
  let* e := End p in
  if Time.Before t e then ret tt
  else
    let* s := getTS p in
    let t := Time.Add t (step s) in
    let* points := quot64 (Time.Sub t e) (step s) in
    extend_loop p (Z.to_nat points).

Definition ExtendBy (p : ptr) (d : Duration) : M unit :=
  let* s := getTS p in
  let* points := quot64 d (step s) in
  extend_loop p (Z.to_nat points).

Definition ExtendWith (p : ptr) (vs : list float) : M unit :=
  let* s := getTS p in
  let* d := append (data s) vs in
  modTS p (set_data d).

(** ** Indexing and point access *)

Definition index (p : ptr) (t : Time.t) : M Z :=
  let* s := getTS p in
  if Time.Before t (start s) then ret (-1)
  else
    let* n := len (data s) in
    let e := Time.Add (start s) (Int64.mul (n - 1) (step s)) in
    if Time.After t e then ret (-1)
    else
      let distance := Time.Sub t (start s) in
      quot64 distance (step s).

Definition GetAt (p : ptr) (t : Time.t) : M (float * bool) :=
  let* i := index p t in
  if i =? -1 then ret (nan, false)
  else
    let* s := getTS p in
    let* v := load (data s) i in
    ret (v, true).

Definition SetAt (p : ptr) (t : Time.t) (value : float) : M bool :=
  let* i := index p t in
  if i =? -1 then ret false
  else
    let* s := getTS p in
    store (data s) i value >>
    ret true.

(** ** Transform *)

(** The loop [for i, v := range tts.data] of [Transform]; [rng] is the slice
    the range expression was evaluated to. *)
Fixpoint transform_loop (q : ptr) (rng : slice) (tr : Transform) (i : Z)
    (k : nat) : M unit :=
  match k with
  | O => ret tt
  | S k' =>
      let* v := load rng i in
      let* s := getTS q in
      store (data s) i (TransformValue tr v) >>
      transform_loop q rng tr (i + 1) k'
  end.

(** The method [Transform] of [*TimeSeries]; the plain name is the
    interface's. *)
Definition TimeSeries_Transform (p : ptr) (tr : Transform) : M ptr :=
  let* tts := Copy p in
  let* s := getTS p in
  modTS tts (set_key (Name tr +:+ "(" +:+ key s +:+ ")")) >>
  let* c := getTS tts in
  let* n := len (data c) in
  transform_loop tts (data c) tr 0 (Z.to_nat n) >>
  ret tts.

(** ** Iteration *)

(** The method [Iterator] of [*TimeSeries]; the plain name is the
    struct's. *)
Definition TimeSeries_Iterator (p : ptr) : M ptr :=
  let* s := getTS p in
  newIt (mkIterator (start s) p).

Definition Next (it : ptr) : M (float * bool) :=
  let* i := getIt it in
  let* r := GetAt (series i) (cursor i) in
  let* i := getIt it in
  let* s := getTS (series i) in
  modIt it (set_cursor (Time.Add (cursor i) (step s))) >>
  ret r.

Definition Last (it : ptr) : M (float * bool) :=
  let* i := getIt it in
  let* e := End (series i) in
  let* s := getTS (series i) in
  modIt it (set_cursor (Time.Add e (Int64.neg (step s)))) >>
  let* i := getIt it in
  GetAt (series i) (cursor i).

(** *** Timestamps and values *)

(** [IteratorTimeValue] embeds [Iterator] and has no field of its own, so an
    object of it is an [Iterator] object. *)
Definition TimeSeries_IteratorTimeValue (p : ptr) : M ptr :=
  let* s := getTS p in
  newIt (mkIterator (start s) p).

Definition IteratorTimeValue_Next (it : ptr) : M (Time.t * float * bool) :=
  let* i := getIt it in
  let t := cursor i in
  let* r := GetAt (series i) (cursor i) in
  let* i := getIt it in
  let* s := getTS (series i) in
  modIt it (set_cursor (Time.Add (cursor i) (step s))) >>
  ret (t, fst r, snd r).

Definition IteratorTimeValue_Last (it : ptr) : M (Time.t * float * bool) :=
  let* i := getIt it in
  let* e := End (series i) in
  let* s := getTS (series i) in
  modIt it (set_cursor (Time.Add e (Int64.neg (step s)))) >>
  let* i := getIt it in
  let t := cursor i in
  let* r := GetAt (series i) (cursor i) in
  ret (t, fst r, snd r).

(** ** Rendering *)

(** The formatting functions of the standard library that [String] calls:
    [time.Time.String], [time.Duration.String], [strconv.Itoa] and
    [strconv.FormatFloat(v, 'f', 2, 64)]. *)
Record Formatters := mkFormatters {
  Time_String : Time.t -> string;
  Duration_String : Duration -> string;
  Itoa : Z -> string;
  FormatFloat : float -> string
}.

Definition bad_truncate : string := "bytes.Buffer: truncation out of range".

(** [bytes.Buffer.Truncate] on the bytes written so far. *)
Definition Truncate (n : Z) (buf : string) : M string :=
  if (n <? 0) || (Z.of_nat (String.length buf) <? n) then panic bad_truncate
  else ret (String.substring 0 (Z.to_nat n) buf).

(** The loop [for _, v := range ts.data] of [String]: each value and a
    comma. *)
Fixpoint write_loop (F : Formatters) (rng : slice) (i : Z) (k : nat)
    (buf : string) : M string :=
  match k with
  | O => ret buf
  | S k' =>
      let* v := load rng i in
      write_loop F rng (i + 1) k' ((buf +:+ FormatFloat F v) +:+ ",")
  end.

(** The method [String], which has a value receiver: it works on a copy
    [ts] of the struct. *)
Definition TimeSeries_String (F : Formatters) (p : ptr) : M string :=
  let* ts := getTS p in
  let buf := "" +:+ key ts in
  let buf := buf +:+ " Start: " in
  let buf := buf +:+ Time_String F (start ts) in
  let buf := buf +:+ " End: " in
  let* n := len (data ts) in
  let buf := buf +:+ Time_String F (Time.Add (start ts) (Int64.mul n (step ts))) in
  let buf := buf +:+ " Step: " in
  let buf := buf +:+ Duration_String F (step ts) in
  let buf := buf +:+ " Length: " in
  let* n := len (data ts) in
  let buf := buf +:+ Itoa F n in
  let buf := buf +:+ " " in
  let* n := len (data ts) in
  let* buf := write_loop F (data ts) 0 (Z.to_nat n) buf in
  if 0 <? Z.of_nat (String.length buf)
  then Truncate (Z.of_nat (String.length buf) - 1) buf
  else ret buf.

(** * Vocabulary of the properties *)

(** [p] points to the series [s] whose samples are [l]. *)
Definition series_at (h : Heap) (p : ptr) (s : TimeSeries) (l : list float) : Prop :=
  objs h !! p = Some s /\ contents h (data s) = Some l.

(** The timestamp of the last valid sample, as [index] computes it:
    [ts.start.Add(time.Duration(len(ts.data)-1) * ts.step)]. *)
Definition last_sample (s : TimeSeries) (n : Z) : Time.t :=
  Time.Add (start s) (Int64.mul (n - 1) (step s)).

(** What [index] computes, as a function of the fields and the length. *)
Definition index_of (s : TimeSeries) (n : Z) (t : Time.t) : Z :=
  if Time.Before t (start s) then -1
  else if Time.After t (Time.Add (start s) (Int64.mul (n - 1) (step s))) then -1
  else Int64.wrap (Z.quot (Time.Sub t (start s)) (step s)).

(** The start and end [NewTimeSeries] works with once the zero timestamps
    are replaced: a zero [start] is the current time, a zero [end] that
    precedes [start + len(values)*step] is that instant. *)
Definition eff_start (now start_ : Time.t) : Time.t :=
  if Time.IsZero start_ then now else start_.

Definition eff_end (now start_ end_ : Time.t) (step_ : Duration)
    (values : list float) : Time.t :=
  let bound :=
    Time.Add (eff_start now start_) (Int64.mul (Z.of_nat (length values)) step_) in
  if negb (negb (Time.IsZero end_)) && Time.Before end_ bound then bound else end_.

(** [int(end.Sub(ts.start) / ts.step)] *)
Definition new_size (now start_ end_ : Time.t) (step_ : Duration)
    (values : list float) : Z :=
  Int64.wrap (Z.quot (Time.Sub (eff_end now start_ end_ step_ values)
                               (eff_start now start_)) step_).

(** The effect of [fill_loop] on the samples. *)
Fixpoint fill_pure (singleValue : bool) (fill : float) (values : list float)
    (i k : nat) (l : list float) : list float :=
  match k with
  | O => l
  | S k' =>
      if singleValue then fill_pure singleValue fill values (S i) k' (<[i := fill]> l)
      else match values !! i with
           | Some v => fill_pure singleValue fill values (S i) k' (<[i := v]> l)
           | None => l
           end
  end.

(** [h'] is [h] with the backing array at [a] replaced by [l]. *)
Definition array_updated (h h' : Heap) (a : ptr) (l : list float) : Prop :=
  objs h' = objs h /\ iters h' = iters h /\ arrs h' = <[a := l]> (arrs h).

(** One value [v] was supplied and the call returned a series of [count]
    samples, every one of them [v]. *)
Definition uniform_fill (now : Time.t) (h : Heap) (key_ : string)
    (start_ end_ : Time.t) (step_ : Duration) (v : float) (count : Z) : Prop :=
  exists p h' s l,
    NewTimeSeries now key_ start_ end_ step_ [v] h = Ok (inl p) h' /\
    series_at h' p s l /\
    Z.of_nat (length l) = count /\
    l = replicate (length l) v.

(** A series without samples and with a negative step, built through the
    API, and a write at its start. *)
Definition SetAt_on_empty_negative_step : M bool :=
  let* r := NewTimeSeries 1000 "k" 100 100 (-10) [] in
  match r with
  | inl p => SetAt p 100 1%float
  | inr _ => ret false
  end.

(** [h'] is [h] after the series at [p], which was [s] with samples [l],
    grew by the samples [added]: same key, start, step and filler, and
    every other object and every array of [h] as it was. *)
Definition extended (h h' : Heap) (p : ptr) (s : TimeSeries)
    (l added : list float) : Prop :=
  exists s',
    series_at h' p s' (l ++ added) /\
    key s' = key s /\ start s' = start s /\ step s' = step s /\
    filler s' = filler s /\
    iters h' = iters h /\
    (forall q, q <> p -> objs h' !! q = objs h !! q) /\
    (forall b x, arrs h !! b = Some x -> arrs h' !! b = Some x).

(** [End()] as the code computes it from the fields and the length. *)
Definition end_of (s : TimeSeries) (n : Z) : Time.t :=
  Time.Add (start s) (Int64.mul n (step s)).

(** The effect of the loop of [Transform] on the samples. *)
Fixpoint map_range (f : float -> float) (i k : nat) (x : list float) : list float :=
  match k with
  | O => x
  | S k' =>
      match x !! i with
      | Some v => map_range f (S i) k' (<[i := f v]> x)
      | None => x
      end
  end.

(** What a caller observes of a run: the value returned or the panic. *)
Definition outcome {A} (r : result A) : A + string :=
  match r with
  | Ok a _ => inl a
  | Panic msg => inr msg
  end.

(** [k] successive calls of [Next], with their results in order. *)
Fixpoint Next_times (it : ptr) (k : nat) : M (list (float * bool)) :=
  match k with
  | O => ret []
  | S k' =>
      let* r := Next it in
      let* rs := Next_times it k' in
      ret (r :: rs)
  end.

(** What a read at the [j]-th step from the start returns when it is the
    [j]-th sample that is looked up. *)
Definition read_at (l : list float) (j : nat) : float * bool :=
  match l !! j with
  | Some v => (v, true)
  | None => (nan, false)
  end.

(** A fresh iterator over the series at [p] yields the samples [l] in order,
    each found, and then, for as many further calls [m] as one likes, only
    not-found results; every call moved the cursor by one step. *)
Definition iterates_over (h : Heap) (p : ptr) (s : TimeSeries) (l : list float)
    : Prop :=
  forall m : nat, exists it h' rest,
    (let* it := TimeSeries_Iterator p in
     let* rs := Next_times it (length l + m) in
     ret (it, rs)) h = Ok (it, ((fun v => (v, true)) <$> l) ++ rest) h' /\
    length rest = m /\
    Forall (fun r => snd r = false) rest /\
    iters h' !! it =
      Some (mkIterator (start s + Z.of_nat (length l + m) * step s) p).

(** A series of three samples spaced 2^62 ns apart, built through the API. *)
Definition wide_step_series : M ptr :=
  let* r := NewTimeSeries 1000 "k" 100 100 (2 ^ 62) [] in
  match r with
  | inl p => ExtendWith p [1%float; 2%float; 3%float] >> ret p
  | inr _ => panic "unexpected error"
  end.

Definition wide_step_heap : Heap :=
  match wide_step_series empty_heap with
  | Ok _ h => h
  | Panic _ => empty_heap
  end.

(** A small series built through the API: three samples, 10 ns apart,
    starting at 1000, and a transform that doubles. *)
Definition sample_heap : Heap :=
  match NewTimeSeriesOfData 2000 "x" 1000 10 [1%float; 2%float; 3%float] empty_heap with
  | Ok _ h => h
  | Panic _ => empty_heap
  end.

Definition sample_series : TimeSeries :=
  mkTimeSeries "x" 1000 10 (Some 0%nat) nan.

Definition double : Transform :=
  mkTransform "double" (fun x => (x + x)%float).

(** Copy the sample series, overwrite the copy's second sample, and read
    that timestamp from the original and from the copy. *)
Definition copy_then_write : M ((float * bool) * (float * bool)) :=
  let* q := Copy 0%nat in
  let* ok := SetAt q 1010 9%float in
  let* a := GetAt 0%nat 1010 in
  let* b := GetAt q 1010 in
  ret (a, b).

(** [k] successive calls of [Next] on an [IteratorTimeValue]. *)
Fixpoint IteratorTimeValue_Next_times (it : ptr) (k : nat)
    : M (list (Time.t * float * bool)) :=
  match k with
  | O => ret []
  | S k' =>
      let* r := IteratorTimeValue_Next it in
      let* rs := IteratorTimeValue_Next_times it k' in
      ret (r :: rs)
  end.

(** The timestamp of the [j]-th step and what is read there. *)
Definition timed_read (s : TimeSeries) (l : list float) (j : nat)
    : Time.t * float * bool :=
  (start s + Z.of_nat j * step s, fst (read_at l j), snd (read_at l j)).

(** What [Last] returns: the final sample, or not-found without samples. *)
Definition final_read (l : list float) : float * bool :=
  match last l with
  | Some v => (v, true)
  | None => (nan, false)
  end.

(** The text of [String] up to the length. *)
Definition header (F : Formatters) (s : TimeSeries) (n : Z) : string :=
  ((((((((key s +:+ " Start: ") +:+ Time_String F (start s)) +:+ " End: ")
        +:+ Time_String F (end_of s n)) +:+ " Step: ")
      +:+ Duration_String F (step s)) +:+ " Length: ") +:+ Itoa F n).

(** The values, each formatted, with commas between them. *)
Fixpoint comma_join (F : Formatters) (v : float) (l : list float) : string :=
  match l with
  | [] => FormatFloat F v
  | x :: l' => (FormatFloat F v +:+ ",") +:+ comma_join F x l'
  end.

Definition samples_text (F : Formatters) (l : list float) : string :=
  match l with
  | [] => ""
  | v :: l' => " " +:+ comma_join F v l'
  end.

(** Formatters for the examples: every timestamp and number as a fixed
    mark. *)
Definition marks : Formatters :=
  mkFormatters (fun _ => "T") (fun _ => "D") (fun _ => "N") (fun _ => "F").

(** What the loop of [String] writes: every value followed by a comma. *)
Fixpoint commas (F : Formatters) (l : list float) : string :=
  match l with
  | [] => ""
  | v :: l' => (FormatFloat F v +:+ ",") +:+ commas F l'
  end.

(** A computation that, when it returns, has left every series object and
    every backing array as it found them. *)
Definition keeps_series {A} (m : M A) : Prop :=
  forall h r h', m h = Ok r h' -> objs h' = objs h /\ arrs h' = arrs h.

(** [GetAt t] finds the sample at index [trunc((t - start) / step)] exactly
    when [start <= t <= start + (n-1)*step], in exact arithmetic, and an
    in-range [t] snaps to the sample at or before it. *)
Definition reads_exactly_in_range (h : Heap) (p : ptr) (s : TimeSeries)
    (l : list float) (t : Time.t) : Prop :=
  let n := Z.of_nat (length l) in
  let i := Z.quot (t - start s) (step s) in
  (start s <= t <= start s + (n - 1) * step s ->
     0 <= i < n /\
     (exists v, l !! Z.to_nat i = Some v /\ GetAt p t h = Ok (v, true) h) /\
     start s + i * step s <= t < start s + (i + 1) * step s) /\
  (~ (start s <= t <= start s + (n - 1) * step s) ->
     GetAt p t h = Ok (nan, false) h).

(** [SetAt t v] writes exactly when [start <= t <= start + (n-1)*step], in
    exact arithmetic. *)
Definition writes_exactly_in_range (h : Heap) (p : ptr) (s : TimeSeries)
    (l : list float) (t : Time.t) (v : float) : Prop :=
  let n := Z.of_nat (length l) in
  let i := Z.quot (t - start s) (step s) in
  (start s <= t <= start s + (n - 1) * step s ->
     exists h', SetAt p t v h = Ok true h' /\
                series_at h' p s (<[Z.to_nat i := v]> l) /\
                GetAt p t h' = Ok (v, true) h') /\
  (~ (start s <= t <= start s + (n - 1) * step s) ->
     SetAt p t v h = Ok false h).

(** [ExtendTo t] does nothing before [End()] and otherwise appends exactly
    [trunc((t + step - End()) / step)] fillers, in exact arithmetic on what
    [End()] returns. *)
Definition extends_to (h : Heap) (p : ptr) (s : TimeSeries) (l : list float)
    (t : Time.t) : Prop :=
  exists e,
    End p h = Ok e h /\
    (t < e -> ExtendTo p t h = Ok tt h) /\
    (e <= t ->
     exists h', ExtendTo p t h = Ok tt h' /\
       extended h h' p s l
         (replicate (Z.to_nat (Z.quot (t + step s - e) (step s))) (filler s))).

(** A series without samples whose step is 2^62 ns, built through the
    API. *)
Definition wide_empty_heap : Heap :=
  match NewTimeSeries 1000 "k" 100 100 (2 ^ 62) [] empty_heap with
  | Ok _ h => h
  | Panic _ => empty_heap
  end.

(** * Properties *)

(** ** Arithmetic of [int64] *)

Lemma wrap_id z : Int64.InRange z -> Int64.wrap z = z.
Proof.
  unfold Int64.InRange, Int64.wrap, Int64.min, Int64.max. intros Hz.
  rewrite Z.mod_small; lia.
Qed.

Lemma wrap_le z : Int64.min <= z -> Int64.wrap z <= z.
Proof.
  unfold Int64.wrap, Int64.min. intros Hz.
  assert (Hm : (z + 2 ^ 63) mod 2 ^ 64 <= z + 2 ^ 63) by (apply Z.mod_le; lia).
  lia.
Qed.

Lemma wrap_range z : Int64.InRange (Int64.wrap z).
Proof.
  unfold Int64.InRange, Int64.wrap, Int64.min, Int64.max.
  assert (Hm : 0 <= (z + 2 ^ 63) mod 2 ^ 64 < 2 ^ 64) by (apply Z.mod_pos_bound; lia).
  lia.
Qed.

Lemma sat_id z : Int64.InRange z -> Int64.sat z = z.
Proof.
  unfold Int64.InRange, Int64.sat. intros Hz.
  destruct (Z.ltb_spec z Int64.min); [lia|].
  destruct (Z.ltb_spec Int64.max z); lia.
Qed.

Lemma sat_range z : Int64.InRange (Int64.sat z).
Proof.
  unfold Int64.InRange, Int64.sat, Int64.min, Int64.max.
  destruct (Z.ltb_spec z (- 2 ^ 63)); [lia|].
  destruct (Z.ltb_spec (2 ^ 63 - 1) z); lia.
Qed.

Lemma sat_nonneg z : 0 <= z -> 0 <= Int64.sat z.
Proof.
  unfold Int64.sat, Int64.min, Int64.max. intros Hz.
  destruct (Z.ltb_spec z (- 2 ^ 63)); [lia|].
  destruct (Z.ltb_spec (2 ^ 63 - 1) z); lia.
Qed.

(** Truncated division of a non-negative [int64] by a positive one. *)
Lemma quot_pos_bounds a b :
  0 <= a -> 0 < b ->
  0 <= Z.quot a b <= a /\ b * Z.quot a b <= a < b * (Z.quot a b + 1).
Proof.
  intros Ha Hb. rewrite Z.quot_div_nonneg by lia.
  pose proof (Z.div_mod a b ltac:(lia)) as Hdm.
  pose proof (Z.mod_pos_bound a b Hb) as Hmod.
  assert (0 <= a / b) by (apply Z.div_pos; lia).
  nia.
Qed.

Lemma quot_nonneg_bounds a b : 0 <= a -> - a <= Z.quot a b <= a.
Proof.
  intros Ha. destruct (Z.lt_trichotomy b 0) as [Hb|[->|Hb]].
  - replace b with (- (- b)) by lia. rewrite Z.quot_opp_r by lia.
    pose proof (quot_pos_bounds a (- b) Ha ltac:(lia)). lia.
  - rewrite Z.quot_0_r_ext by reflexivity. lia.
  - pose proof (quot_pos_bounds a b Ha Hb). lia.
Qed.

Lemma quot64_run a b h :
  b <> 0 -> quot64 a b h = Ok (Int64.wrap (Z.quot a b)) h.
Proof.
  intros Hb. unfold quot64. destruct (Z.eqb_spec b 0); [contradiction|reflexivity].
Qed.

Lemma quot64_pos a b h :
  0 <= a <= Int64.max -> 0 < b -> quot64 a b h = Ok (Z.quot a b) h.
Proof.
  intros Ha Hb. rewrite quot64_run by lia. f_equal.
  apply wrap_id. pose proof (quot_pos_bounds a b ltac:(lia) Hb).
  unfold Int64.InRange, Int64.min, Int64.max in *. lia.
Qed.

(** ** Running the primitives *)

Lemma bind_ok {A B} (m : M A) (k : A -> M B) h a h' :
  m h = Ok a h' -> bind m k h = k a h'.
Proof. intros E. unfold bind. rewrite E. reflexivity. Qed.

Lemma bind_panic {A B} (m : M A) (k : A -> M B) h msg :
  m h = Panic msg -> bind m k h = Panic msg.
Proof. intros E. unfold bind. rewrite E. reflexivity. Qed.

Lemma getTS_run h p s : objs h !! p = Some s -> getTS p h = Ok s h.
Proof. intros E. unfold getTS. rewrite E. reflexivity. Qed.

Lemma len_run h s l : contents h s = Some l -> len s h = Ok (Z.of_nat (length l)) h.
Proof. intros E. unfold len. rewrite E. reflexivity. Qed.

Lemma in_bounds_true i (l : list float) :
  0 <= i < Z.of_nat (length l) -> in_bounds i l = true.
Proof.
  intros Hi. unfold in_bounds.
  destruct (Z.leb_spec 0 i); [|lia]. destruct (Z.ltb_spec i (Z.of_nat (length l))); [reflexivity|lia].
Qed.

Lemma in_bounds_lookup i (l : list float) :
  0 <= i < Z.of_nat (length l) -> exists v, l !! Z.to_nat i = Some v.
Proof.
  intros Hi. destruct (lookup_lt_is_Some_2 l (Z.to_nat i)) as [v Hv]; [lia|]. eauto.
Qed.

Lemma load_run h s l i v :
  contents h s = Some l -> 0 <= i -> l !! Z.to_nat i = Some v -> load s i h = Ok v h.
Proof.
  intros E Hi Hv. unfold load. rewrite E, Hv.
  rewrite in_bounds_true; [reflexivity|].
  apply lookup_lt_Some in Hv. lia.
Qed.

Lemma load_out h s l i :
  contents h s = Some l -> ~ (0 <= i < Z.of_nat (length l)) ->
  load s i h = Panic out_of_range.
Proof.
  intros E Hi. unfold load. rewrite E.
  destruct (l !! Z.to_nat i) eqn:Hv; [|reflexivity].
  unfold in_bounds. apply lookup_lt_Some in Hv.
  destruct (Z.leb_spec 0 i); [|reflexivity].
  destruct (Z.ltb_spec i (Z.of_nat (length l))); [lia|reflexivity].
Qed.

Lemma store_run h s l i v :
  contents h s = Some l -> 0 <= i < Z.of_nat (length l) ->
  exists a, s = Some a /\
    store s i v h = Ok tt (with_arrs (<[a := <[Z.to_nat i := v]> l]> (arrs h)) h).
Proof.
  intros E Hi. destruct s as [a|]; simpl in E.
  - exists a. split; [reflexivity|]. unfold store. rewrite E.
    rewrite in_bounds_true by assumption. reflexivity.
  - injection E as <-. simpl in Hi. lia.
Qed.

Lemma store_out h s l i v :
  contents h s = Some l -> ~ (0 <= i < Z.of_nat (length l)) ->
  store s i v h = Panic out_of_range.
Proof.
  intros E Hi. destruct s as [a|]; simpl in E; [|reflexivity].
  unfold store. rewrite E. unfold in_bounds.
  destruct (Z.leb_spec 0 i); [|reflexivity].
  destruct (Z.ltb_spec i (Z.of_nat (length l))); [lia|reflexivity].
Qed.

(** ** Indexing *)

Lemma index_run h p s l t :
  series_at h p s l -> step s <> 0 ->
  index p t h = Ok (index_of s (Z.of_nat (length l)) t) h.
Proof.
  intros [Hp Hl] Hstep. unfold index, index_of.
  rewrite (bind_ok _ _ _ _ _ (getTS_run _ _ _ Hp)).
  destruct (Time.Before t (start s)); [reflexivity|].
  rewrite (bind_ok _ _ _ _ _ (len_run _ _ _ Hl)).
  destruct (Time.After t _); [reflexivity|].
  apply quot64_run, Hstep.
Qed.

Lemma last_sample_le s n :
  0 < step s <= Int64.max -> 0 <= n ->
  last_sample s n <= start s + (n - 1) * step s.
Proof.
  intros Hs Hn. unfold last_sample, Time.Add, Int64.mul.
  assert (Int64.wrap ((n - 1) * step s) <= (n - 1) * step s); [|lia].
  apply wrap_le. unfold Int64.min, Int64.max in *. nia.
Qed.

Lemma last_sample_exact s n :
  Int64.InRange ((n - 1) * step s) ->
  last_sample s n = start s + (n - 1) * step s.
Proof.
  intros Hr. unfold last_sample, Time.Add, Int64.mul. rewrite wrap_id by assumption.
  reflexivity.
Qed.

Lemma index_of_in s n t :
  0 < step s <= Int64.max -> 0 <= n ->
  start s <= t <= last_sample s n ->
  index_of s n t = Z.quot (t - start s) (step s) /\
  0 <= Z.quot (t - start s) (step s) < n /\
  start s + Z.quot (t - start s) (step s) * step s <= t
    < start s + (Z.quot (t - start s) (step s) + 1) * step s.
Proof.
  intros Hs Hn Ht.
  pose proof (last_sample_le s n Hs Hn) as Hle.
  pose proof (wrap_range ((n - 1) * step s)) as Hw.
  assert (Hd : 0 <= t - start s <= Int64.max).
  { unfold last_sample, Time.Add, Int64.mul, Int64.InRange in *. lia. }
  pose proof (quot_pos_bounds (t - start s) (step s) ltac:(lia) ltac:(lia)) as Hq.
  split; [|split].
  - unfold index_of, Time.Before, Time.After, Time.Sub. fold (last_sample s n).
    destruct (Z.ltb_spec t (start s)); [lia|].
    destruct (Z.ltb_spec (last_sample s n) t); [lia|].
    rewrite sat_id by (unfold Int64.InRange, Int64.min, Int64.max in *; lia).
    apply wrap_id. unfold Int64.InRange, Int64.min, Int64.max in *. lia.
  - split; [lia|]. nia.
  - nia.
Qed.

Lemma index_of_out s n t :
  ~ (start s <= t <= last_sample s n) -> index_of s n t = -1.
Proof.
  intros Ht. unfold index_of, Time.Before, Time.After. fold (last_sample s n).
  destruct (Z.ltb_spec t (start s)); [reflexivity|].
  destruct (Z.ltb_spec (last_sample s n) t); [reflexivity|lia].
Qed.

Lemma GetAt_run_in h p s l t v :
  series_at h p s l -> 0 < step s <= Int64.max ->
  start s <= t <= last_sample s (Z.of_nat (length l)) ->
  l !! Z.to_nat (Z.quot (t - start s) (step s)) = Some v ->
  GetAt p t h = Ok (v, true) h.
Proof.
  intros Hat Hs Ht Hv.
  destruct (index_of_in s _ t Hs (Nat2Z.is_nonneg _) Ht) as (Hi & Hb & _).
  unfold GetAt. rewrite (bind_ok _ _ _ _ _ (index_run _ _ _ _ t Hat ltac:(lia))).
  rewrite Hi. destruct (Z.eqb_spec (Z.quot (t - start s) (step s)) (-1)); [lia|].
  destruct Hat as [Hp Hl].
  rewrite (bind_ok _ _ _ _ _ (getTS_run _ _ _ Hp)).
  assert (Hi0 : 0 <= Z.quot (t - start s) (step s)) by lia.
  rewrite (bind_ok _ _ _ _ _ (load_run _ _ _ _ _ Hl Hi0 Hv)).
  reflexivity.
Qed.

Lemma GetAt_run_out h p s l t :
  series_at h p s l -> step s <> 0 ->
  ~ (start s <= t <= last_sample s (Z.of_nat (length l))) ->
  GetAt p t h = Ok (nan, false) h.
Proof.
  intros Hat Hs Ht. unfold GetAt.
  rewrite (bind_ok _ _ _ _ _ (index_run _ _ _ _ t Hat Hs)).
  rewrite index_of_out by assumption. reflexivity.
Qed.

(** Point lookup in terms of [last_sample], the bound [index] computes with
    an [int64] product: for a series with positive step, [GetAt t] returns
    [(l[trunc((t - start) / step)], true)] exactly when
    [start <= t <= last_sample], and [(NaN, false)] for every other [t]; an
    in-range [t] snaps to the sample at or before it. *)
Theorem GetAt_exactly_in_range h p s l t :
  series_at h p s l -> 0 < step s <= Int64.max ->
  let n := Z.of_nat (length l) in
  let i := Z.quot (t - start s) (step s) in
  (start s <= t <= last_sample s n ->
     0 <= i < n /\
     (exists v, l !! Z.to_nat i = Some v /\ GetAt p t h = Ok (v, true) h) /\
     start s + i * step s <= t < start s + (i + 1) * step s) /\
  (~ (start s <= t <= last_sample s n) -> GetAt p t h = Ok (nan, false) h).
Proof.
  intros Hat Hs n i. split.
  - intros Ht.
    destruct (index_of_in s n t Hs (Nat2Z.is_nonneg _) Ht) as (_ & Hb & Hsnap).
    split; [exact Hb|]. split; [|exact Hsnap].
    destruct (in_bounds_lookup i l Hb) as [v Hv].
    exists v. split; [exact Hv|]. eapply GetAt_run_in; eassumption.
  - intros Ht. eapply GetAt_run_out; [eassumption|lia|exact Ht].
Qed.

(** ** Construction *)

Lemma arg_at_run (vs : list float) i v h :
  vs !! i = Some v -> arg_at vs (Z.of_nat i) h = Ok v h.
Proof.
  intros Hv. unfold arg_at. rewrite Nat2Z.id, Hv.
  rewrite in_bounds_true; [reflexivity|]. apply lookup_lt_Some in Hv. lia.
Qed.

Lemma fill_loop_run p single fill values k : forall i h s a l,
  objs h !! p = Some s -> data s = Some a -> arrs h !! a = Some l ->
  (i + k <= length l)%nat ->
  exists h', fill_loop p single fill values (Z.of_nat i) k h = Ok tt h' /\
             array_updated h h' a (fill_pure single fill values i k l).
Proof.
  induction k as [|k IH]; intros i h s a l Hp Ha Hl Hlen; simpl.
  - exists h. split; [reflexivity|]. repeat split. symmetry. apply insert_id, Hl.
  - assert (Hc : contents h (data s) = Some l) by (rewrite Ha; exact Hl).
    assert (Hi : 0 <= Z.of_nat i < Z.of_nat (length l)) by lia.
    assert (Hstep : forall v,
      exists h', (let* s0 := getTS p in
                  store (data s0) (Z.of_nat i) v >>
                  fill_loop p single fill values (Z.of_nat i + 1) k) h = Ok tt h' /\
                 array_updated h h' a (fill_pure single fill values (S i) k (<[i := v]> l))).
    { intros v. rewrite (bind_ok _ _ _ _ _ (getTS_run _ _ _ Hp)).
      destruct (store_run h (data s) l (Z.of_nat i) v Hc Hi) as (a' & Ha' & Hst).
      assert (a' = a) by congruence. subst a'.
      rewrite (bind_ok _ _ _ _ _ Hst). rewrite Nat2Z.id.
      replace (Z.of_nat i + 1) with (Z.of_nat (S i)) by lia.
      destruct (IH (S i) (with_arrs (<[a := <[i := v]> l]> (arrs h)) h) s a (<[i := v]> l))
        as (h' & Hrun & Ho & Hi' & Harr); simpl.
      - exact Hp.
      - exact Ha.
      - apply lookup_insert_eq.
      - rewrite length_insert. lia.
      - exists h'. split; [exact Hrun|]. repeat split; [exact Ho|exact Hi'|].
        rewrite Harr. simpl. apply insert_insert_eq. }
    destruct single; [apply Hstep|].
    destruct (Z.ltb_spec (Z.of_nat i) (Z.of_nat (length values))) as [Hlt|Hge].
    + destruct (lookup_lt_is_Some_2 values i ltac:(lia)) as [v Hv]. rewrite Hv.
      rewrite (bind_ok _ _ _ _ _ (arg_at_run _ _ _ _ Hv)). apply Hstep.
    + rewrite (lookup_ge_None_2 values i) by lia.
      exists h. split; [reflexivity|]. repeat split. symmetry. apply insert_id, Hl.
Qed.

Lemma fill_pure_length single fill values k : forall i l,
  length (fill_pure single fill values i k l) = length l.
Proof.
  induction k as [|k IH]; intros i l; simpl; [reflexivity|].
  destruct single; [rewrite IH; apply length_insert|].
  destruct (values !! i); [rewrite IH; apply length_insert|reflexivity].
Qed.

Lemma fill_pure_single fill values k : forall i l j,
  (i + k <= length l)%nat ->
  fill_pure true fill values i k l !! j =
    if decide (i <= j < i + k)%nat then Some fill else l !! j.
Proof.
  induction k as [|k IH]; intros i l j Hlen; simpl.
  - case_decide; [lia|reflexivity].
  - rewrite IH by (rewrite length_insert; lia).
    destruct (decide (j = i)) as [->|Hne].
    + rewrite list_lookup_insert_eq by lia. repeat case_decide; try lia; reflexivity.
    + rewrite list_lookup_insert_ne by congruence. repeat case_decide; try lia; reflexivity.
Qed.

Lemma fill_pure_multi fill values k : forall i l j,
  (i + k <= length l)%nat ->
  fill_pure false fill values i k l !! j =
    if decide (i <= j < i + k /\ j < length values)%nat then values !! j else l !! j.
Proof.
  induction k as [|k IH]; intros i l j Hlen; simpl.
  - case_decide; [lia|reflexivity].
  - destruct (values !! i) as [v|] eqn:Hv.
    + pose proof (lookup_lt_Some _ _ _ Hv) as Hi.
      rewrite IH by (rewrite length_insert; lia).
      destruct (decide (j = i)) as [->|Hne].
      * rewrite list_lookup_insert_eq by lia.
        repeat case_decide; try lia. symmetry. exact Hv.
      * rewrite list_lookup_insert_ne by congruence.
        repeat case_decide; try lia; reflexivity.
    + pose proof (lookup_ge_None_1 _ _ Hv) as Hi.
      case_decide; [lia|reflexivity].
Qed.

Lemma newTS_run s h :
  newTS s h = Ok (fresh (dom (objs h)))
                 (with_objs (<[fresh (dom (objs h)) := s]> (objs h)) h).
Proof. reflexivity. Qed.

Lemma fresh_objs (h : Heap) : objs h !! fresh (dom (objs h)) = None.
Proof. apply not_elem_of_dom, is_fresh. Qed.

Lemma fresh_arrs (h : Heap) : arrs h !! fresh (dom (arrs h)) = None.
Proof. apply not_elem_of_dom, is_fresh. Qed.

Lemma fresh_iters (h : Heap) : iters h !! fresh (dom (iters h)) = None.
Proof. apply not_elem_of_dom, is_fresh. Qed.

Lemma make_run n h :
  0 <= n ->
  make n h = Ok (Some (fresh (dom (arrs h))))
               (with_arrs (<[fresh (dom (arrs h)) := replicate (Z.to_nat n) 0%float]> (arrs h)) h).
Proof.
  intros Hn. unfold make. destruct (Z.ltb_spec n 0); [lia|reflexivity].
Qed.

Lemma make_negative n h : n < 0 -> make n h = Panic bad_len.
Proof.
  intros Hn. unfold make. destruct (Z.ltb_spec n 0); [reflexivity|lia].
Qed.

Lemma modTS_run p f h s :
  objs h !! p = Some s ->
  modTS p f h = Ok tt (with_objs (<[p := f s]> (objs h)) h).
Proof. intros E. unfold modTS. rewrite E. reflexivity. Qed.

(** The common prefix of a run of [NewTimeSeries] with a non-zero step: the
    defaults for the zero timestamps and the allocation of the object. *)
Ltac enter_NewTimeSeries now start_ end_ step_ values h :=
  unfold NewTimeSeries;
  destruct (Z.eqb_spec step_ 0); [contradiction|];
  cbv zeta; fold (eff_start now start_);
  change (if negb (negb (Time.IsZero end_)) &&
             Time.Before end_
               (Time.Add (eff_start now start_)
                  (Int64.mul (Z.of_nat (length values)) step_))
          then Time.Add (eff_start now start_)
                 (Int64.mul (Z.of_nat (length values)) step_)
          else end_) with (eff_end now start_ end_ step_ values);
  rewrite (bind_ok _ _ _ _ _ (newTS_run _ h));
  rewrite (bind_ok _ _ _ _ _ (getTS_run _ _ _ (lookup_insert_eq _ _ _)));
  cbn [start step]; unfold Time.After.

Ltac skip_third_check step_ :=
  match goal with |- context [?b && (step_ =? 0)] =>
    replace (b && (step_ =? 0)) with false
      by (destruct (Z.eqb_spec step_ 0); [contradiction|]; destruct b; reflexivity)
  end.

(** The three checks of [NewTimeSeries] and the allocation, in terms of the
    effective bounds. *)
Lemma NewTimeSeries_run now h key_ start_ end_ step_ values :
  step_ <> 0 ->
  eff_start now start_ <= eff_end now start_ end_ step_ values ->
  0 <= new_size now start_ end_ step_ values ->
  let n := Z.to_nat (new_size now start_ end_ step_ values) in
  let single := (length values =? 1)%nat in
  let fill := match values with [v] => v | _ => nan end in
  exists p a h',
    NewTimeSeries now key_ start_ end_ step_ values h = Ok (inl p) h' /\
    objs h !! p = None /\ arrs h !! a = None /\
    objs h' = <[p := mkTimeSeries key_ (eff_start now start_) step_ (Some a) fill]> (objs h) /\
    arrs h' = <[a := fill_pure single fill values 0 n (replicate n 0%float)]> (arrs h) /\
    iters h' = iters h.
Proof.
  intros Hstep Hle Hsize n single fill.
  set (p := fresh (dom (objs h))). set (a := fresh (dom (arrs h))).
  set (s0 := mkTimeSeries key_ (eff_start now start_) step_ None fill).
  set (h1 := with_objs (<[p := s0]> (objs h)) h).
  set (h2 := with_arrs (<[a := replicate n 0%float]> (arrs h1)) h1).
  set (h3 := with_objs (<[p := set_data (Some a) s0]> (objs h2)) h2).
  assert (Hp1 : objs h1 !! p = Some s0) by apply lookup_insert_eq.
  assert (Hp3 : objs h3 !! p = Some (set_data (Some a) s0)) by apply lookup_insert_eq.
  assert (Ha3 : arrs h3 !! a = Some (replicate n 0%float)) by apply lookup_insert_eq.
  destruct (fill_loop_run p single fill values n 0%nat h3 _ a _ Hp3 eq_refl Ha3)
    as (h' & Hrun & Ho & Hi & Harr).
  { rewrite length_replicate. lia. }
  exists p, a, h'. split; [|split; [apply fresh_objs|split; [apply fresh_arrs|]]].
  - unfold NewTimeSeries. destruct (Z.eqb_spec step_ 0); [contradiction|].
    cbv zeta. fold (eff_start now start_).
    change (if negb (negb (Time.IsZero end_)) &&
               Time.Before end_
                 (Time.Add (eff_start now start_)
                    (Int64.mul (Z.of_nat (length values)) step_))
            then Time.Add (eff_start now start_)
                   (Int64.mul (Z.of_nat (length values)) step_)
            else end_) with (eff_end now start_ end_ step_ values).
    rewrite (bind_ok _ _ _ _ _ (newTS_run _ h)). fold p. fold fill. fold s0. fold h1.
    rewrite (bind_ok _ _ _ _ _ (getTS_run _ _ _ Hp1)).
    change (start s0) with (eff_start now start_). change (step s0) with step_.
    unfold Time.After. destruct (Z.ltb_spec (eff_end now start_ end_ step_ values)
                                            (eff_start now start_)); [lia|].
    match goal with |- context [?b && (step_ =? 0)] =>
      replace (b && (step_ =? 0)) with false
        by (destruct (Z.eqb_spec step_ 0); [contradiction|]; destruct b; reflexivity)
    end.
    rewrite (bind_ok _ _ _ _ _ (quot64_run _ _ _ Hstep)).
    fold (new_size now start_ end_ step_ values).
    rewrite (bind_ok _ _ _ _ _ (make_run _ h1 Hsize)). fold n.
    change (fresh (dom (arrs h1))) with a. fold h2.
    rewrite (bind_ok _ _ _ _ _ (modTS_run p _ h2 s0 Hp1)). fold h3.
    rewrite (bind_ok _ _ _ _ _ (getTS_run _ _ _ Hp3)).
    rewrite (bind_ok _ _ _ _ _ (len_run h3 (Some a) _ Ha3)).
    rewrite length_replicate, Nat2Z.id. fold single.
    change 0 with (Z.of_nat 0). rewrite (bind_ok _ _ _ _ _ Hrun). reflexivity.
  - split; [|split].
    + rewrite Ho. simpl. apply insert_insert_eq.
    + rewrite Harr. simpl. apply insert_insert_eq.
    + rewrite Hi. reflexivity.
Qed.

Lemma NewTimeSeries_step_zero now h key_ start_ end_ values :
  NewTimeSeries now key_ start_ end_ 0 values h = Ok (inr ErrStepZero) h.
Proof. reflexivity. Qed.

Lemma NewTimeSeries_start_after_end now h key_ start_ end_ step_ values :
  step_ <> 0 ->
  eff_end now start_ end_ step_ values < eff_start now start_ ->
  exists h',
    NewTimeSeries now key_ start_ end_ step_ values h =
      Ok (inr (ErrStartAfterEnd (eff_start now start_)
                                (eff_end now start_ end_ step_ values))) h'.
Proof.
  intros Hstep Hlt. enter_NewTimeSeries now start_ end_ step_ values h.
  destruct (Z.ltb_spec (eff_end now start_ end_ step_ values) (eff_start now start_)); [|lia].
  eexists. reflexivity.
Qed.

Lemma NewTimeSeries_negative_size now h key_ start_ end_ step_ values :
  step_ <> 0 ->
  eff_start now start_ <= eff_end now start_ end_ step_ values ->
  new_size now start_ end_ step_ values < 0 ->
  NewTimeSeries now key_ start_ end_ step_ values h = Panic bad_len.
Proof.
  intros Hstep Hle Hneg. enter_NewTimeSeries now start_ end_ step_ values h.
  destruct (Z.ltb_spec (eff_end now start_ end_ step_ values) (eff_start now start_)); [lia|].
  skip_third_check step_.
  rewrite (bind_ok _ _ _ _ _ (quot64_run _ _ _ Hstep)).
  fold (new_size now start_ end_ step_ values).
  rewrite (bind_panic _ _ _ _ (make_negative _ _ Hneg)). reflexivity.
Qed.

(** The third error is never returned: its guard repeats the first check. *)
Lemma NewTimeSeries_third_error_unreachable now h key_ start_ end_ step_ values h' :
  NewTimeSeries now key_ start_ end_ step_ values h <> Ok (inr ErrStepZeroUnequal) h'.
Proof.
  destruct (Z.eq_dec step_ 0) as [->|Hstep].
  { rewrite NewTimeSeries_step_zero. discriminate. }
  destruct (Z_lt_le_dec (eff_end now start_ end_ step_ values) (eff_start now start_))
    as [Hlt|Hle].
  { destruct (NewTimeSeries_start_after_end now h key_ _ _ _ values Hstep Hlt) as [h1 ->].
    discriminate. }
  destruct (Z_lt_le_dec (new_size now start_ end_ step_ values) 0) as [Hneg|Hsize].
  { rewrite NewTimeSeries_negative_size by assumption. discriminate. }
  destruct (NewTimeSeries_run now h key_ _ _ _ values Hstep Hle Hsize)
    as (p & a & h1 & -> & _). discriminate.
Qed.

(** C3.  A negative step with the end after the start passes the three
    validations and then makes [make] panic on a negative length:
    [NewTimeSeries("x", 100, 150, -10)] neither succeeds nor returns one of
    the three errors. *)
Theorem NewTimeSeries_negative_step_panics :
  NewTimeSeries 1000 "x" 100 150 (-10) [] empty_heap = Panic bad_len.
Proof. vm_compute. reflexivity. Qed.

(** C2.  On the empty series [NewTimeSeries("k", 100, 100, -10)] the guard
    of [index] lets the timestamp 100 through, and [SetAt(100, 1.0)] panics
    with an index out of range instead of returning [false]. *)
Theorem SetAt_panics_on_empty_negative_step :
  SetAt_on_empty_negative_step empty_heap = Panic out_of_range.
Proof. vm_compute. reflexivity. Qed.

Lemma new_size_nonzero_bounds now start_ end_ step_ values :
  start_ <> Time.zero -> end_ <> Time.zero ->
  eff_start now start_ = start_ /\
  eff_end now start_ end_ step_ values = end_ /\
  (start_ <= end_ ->
   new_size now start_ end_ step_ values = Z.quot (Time.Sub end_ start_) step_).
Proof.
  intros Hs He. unfold new_size, eff_end, eff_start, Time.IsZero.
  destruct (Z.eqb_spec start_ Time.zero); [contradiction|].
  destruct (Z.eqb_spec end_ Time.zero); [contradiction|]. simpl.
  split; [reflexivity|]. split; [reflexivity|]. intros Hle.
  apply wrap_id.
  pose proof (sat_range (end_ - start_)) as Hr.
  pose proof (sat_nonneg (end_ - start_) ltac:(lia)) as Hn.
  unfold Time.Sub. set (d := Int64.sat (end_ - start_)) in *.
  pose proof (quot_nonneg_bounds d step_ Hn).
  unfold Int64.InRange, Int64.min, Int64.max in *. lia.
Qed.

Lemma fill_uniform n fill values :
  fill_pure true fill values 0 n (replicate n 0%float) = replicate n fill.
Proof.
  apply list_eq. intros j.
  rewrite fill_pure_single by (rewrite length_replicate; lia).
  case_decide as Hj.
  - symmetry. apply lookup_replicate_2. lia.
  - rewrite !lookup_ge_None_2; [reflexivity| |]; rewrite length_replicate; lia.
Qed.

(** One value: the samples are all that value. *)
Lemma NewTimeSeries_single_value now h key_ start_ end_ step_ v :
  step_ <> 0 ->
  eff_start now start_ <= eff_end now start_ end_ step_ [v] ->
  0 <= new_size now start_ end_ step_ [v] ->
  exists p a h',
    NewTimeSeries now key_ start_ end_ step_ [v] h = Ok (inl p) h' /\
    series_at h' p (mkTimeSeries key_ (eff_start now start_) step_ (Some a) v)
      (replicate (Z.to_nat (new_size now start_ end_ step_ [v])) v).
Proof.
  intros Hstep Hle Hsize.
  destruct (NewTimeSeries_run now h key_ _ _ _ [v] Hstep Hle Hsize)
    as (p & a & h' & Hrun & _ & _ & Ho & Ha & _).
  simpl in Ho, Ha. rewrite fill_uniform in Ha.
  exists p, a, h'. split; [exact Hrun|]. split.
  - rewrite Ho. apply lookup_insert_eq.
  - simpl. rewrite Ha. apply lookup_insert_eq.
Qed.

(** Uniform fill in terms of [new_size], the length the code computes from
    the saturating [time.Sub]: with exactly one value [v], a non-zero step,
    the effective start not after the effective end and a non-negative
    [new_size], the call returns a series of exactly [new_size] samples, all
    equal to [v]. *)
Theorem NewTimeSeries_uniform_fill now h key_ start_ end_ step_ v :
  step_ <> 0 ->
  eff_start now start_ <= eff_end now start_ end_ step_ [v] ->
  0 <= new_size now start_ end_ step_ [v] ->
  uniform_fill now h key_ start_ end_ step_ v (new_size now start_ end_ step_ [v]).
Proof.
  intros Hstep Hle Hsize.
  destruct (NewTimeSeries_run now h key_ _ _ _ [v] Hstep Hle Hsize)
    as (p & a & h' & Hrun & _ & _ & Ho & Ha & _).
  simpl in Ho, Ha. rewrite fill_uniform in Ha.
  eexists p, h', _, _. split; [exact Hrun|]. split; [|split].
  - split; [rewrite Ho; apply lookup_insert_eq|].
    simpl. rewrite Ha. apply lookup_insert_eq.
  - rewrite length_replicate. lia.
  - rewrite length_replicate. reflexivity.
Qed.

(** With neither timestamp zero the count is [trunc((end - start) / step)]
    of the arguments themselves. *)
Lemma NewTimeSeries_uniform_fill_nonzero now h key_ start_ end_ step_ v :
  step_ <> 0 -> start_ <> Time.zero -> end_ <> Time.zero -> start_ <= end_ ->
  0 <= Z.quot (Time.Sub end_ start_) step_ ->
  uniform_fill now h key_ start_ end_ step_ v (Z.quot (Time.Sub end_ start_) step_).
Proof.
  intros Hstep Hs He Hle Hsize.
  destruct (new_size_nonzero_bounds now start_ end_ step_ [v] Hs He) as (Es & Ee & En).
  assert (Hsize' : 0 <= new_size now start_ end_ step_ [v]) by (rewrite (En Hle); exact Hsize).
  destruct (NewTimeSeries_single_value now h key_ start_ end_ step_ v Hstep ltac:(lia) Hsize')
    as (p & a & h' & Hrun & Hat).
  rewrite (En Hle) in Hat.
  eexists p, h', _, _. split; [exact Hrun|]. split; [exact Hat|].
  rewrite length_replicate. split; [lia|reflexivity].
Qed.

(** The scenario of the specification: five steps, one value. *)
Lemma NewTimeSeries_five_sevens now h t0 step_ :
  t0 <> Time.zero -> t0 + 5 * step_ <> Time.zero ->
  0 < step_ -> 5 * step_ <= Int64.max ->
  uniform_fill now h "x" t0 (t0 + 5 * step_) step_ 7%float 5.
Proof.
  intros Ht0 Ht5 Hstep Hfit.
  assert (Hq : Z.quot (Time.Sub (t0 + 5 * step_) t0) step_ = 5).
  { unfold Time.Sub. rewrite sat_id
      by (unfold Int64.InRange, Int64.min, Int64.max in *; lia).
    replace (t0 + 5 * step_ - t0) with (5 * step_) by lia.
    apply Z.quot_mul. lia. }
  pose proof (NewTimeSeries_uniform_fill_nonzero now h "x" t0 (t0 + 5 * step_)
                step_ 7%float) as Hu.
  rewrite Hq in Hu. apply Hu; lia.
Qed.

Lemma NewTimeSeries_uniform_fill_witness :
  uniform_fill 2000 empty_heap "x" 1000 1050 10 7%float 5.
Proof.
  apply (NewTimeSeries_uniform_fill 2000 empty_heap "x" 1000 1050 10 7%float);
    vm_compute; congruence.
Defined.

(** When [start] is the zero timestamp the series starts at the current
    time: [NewTimeSeries("x", time.Time{}, 1050, 10, 7.0)] at time 1000 has 5
    samples, not [trunc((1050 - 0) / 10) = 105]. *)
Lemma uniform_fill_zero_start_counterexample :
  (10 <> 0 /\ Time.zero <= 1050) /\
  ~ uniform_fill 1000 empty_heap "x" Time.zero 1050 10 7%float
      (Z.quot (1050 - Time.zero) 10).
Proof.
  split; [split; [lia|unfold Time.zero; lia]|].
  intros (p & h' & s & l & Hrun & [Hp Hl] & Hlen & _).
  vm_compute in Hrun. injection Hrun as <- <-.
  vm_compute in Hp. injection Hp as <-.
  vm_compute in Hl. injection Hl as <-.
  vm_compute in Hlen. discriminate.
Qed.

(** ** The multi-value branch *)

Lemma zero_is_not_nan : 0%float <> nan.
Proof.
  intros E. assert (Hn : PrimFloat.is_nan 0%float = PrimFloat.is_nan nan) by (rewrite E; reflexivity).
  vm_compute in Hn. discriminate.
Qed.

(** C5.  With zero or several values and a computed length [n] larger than
    their number, the call returns [n] samples: the values in order, then
    zeros up to index [n-1], although the filler of the series is NaN. *)
Theorem NewTimeSeries_multi_value_zero_tail now h key_ start_ end_ step_ values :
  length values <> 1%nat ->
  step_ <> 0 ->
  eff_start now start_ <= eff_end now start_ end_ step_ values ->
  Z.of_nat (length values) < new_size now start_ end_ step_ values ->
  exists p h' s l,
    NewTimeSeries now key_ start_ end_ step_ values h = Ok (inl p) h' /\
    series_at h' p s l /\
    Z.of_nat (length l) = new_size now start_ end_ step_ values /\
    filler s = nan /\ 0%float <> nan /\
    (forall j, (j < length values)%nat -> l !! j = values !! j) /\
    (forall j, (length values <= j)%nat ->
               Z.of_nat j < new_size now start_ end_ step_ values ->
               l !! j = Some 0%float).
Proof.
  intros Hmulti Hstep Hle Hlt.
  assert (Hsize : 0 <= new_size now start_ end_ step_ values) by lia.
  destruct (NewTimeSeries_run now h key_ _ _ _ values Hstep Hle Hsize)
    as (p & a & h' & Hrun & _ & _ & Ho & Ha & _).
  assert (Hsingle : (length values =? 1)%nat = false) by (apply Nat.eqb_neq, Hmulti).
  rewrite Hsingle in Ha.
  assert (Hfill : match values with [v] => v | _ => nan end = nan).
  { destruct values as [|x [|y vs]]; [reflexivity|contradiction Hmulti; reflexivity|reflexivity]. }
  rewrite Hfill in Ho, Ha.
  set (n := Z.to_nat (new_size now start_ end_ step_ values)) in *.
  eexists p, h', _, _. split; [exact Hrun|]. split; [|split; [|split; [|split; [|split]]]].
  - split; [rewrite Ho; apply lookup_insert_eq|].
    simpl. rewrite Ha. apply lookup_insert_eq.
  - rewrite fill_pure_length, length_replicate. lia.
  - reflexivity.
  - exact zero_is_not_nan.
  - intros j Hj. rewrite fill_pure_multi by (rewrite length_replicate; lia).
    case_decide; [reflexivity|lia].
  - intros j Hj Hjn. rewrite fill_pure_multi by (rewrite length_replicate; lia).
    case_decide; [lia|]. apply lookup_replicate_2. lia.
Qed.

Lemma NewTimeSeries_multi_value_zero_tail_witness :
  exists p h' s l,
    NewTimeSeries 2000 "x" 1000 1050 10 [1%float; 2%float] empty_heap = Ok (inl p) h' /\
    series_at h' p s l /\
    Z.of_nat (length l) = 5 /\
    filler s = nan /\ 0%float <> nan /\
    (forall j, (j < 2)%nat -> l !! j = [1%float; 2%float] !! j) /\
    (forall j, (2 <= j)%nat -> Z.of_nat j < 5 -> l !! j = Some 0%float).
Proof.
  apply (NewTimeSeries_multi_value_zero_tail 2000 empty_heap "x" 1000 1050 10
           [1%float; 2%float]); vm_compute; congruence.
Defined.

(** ** Range extension *)

Lemma append_run h s l vs :
  contents h s = Some l -> vs <> [] ->
  append s vs h = Ok (Some (fresh (dom (arrs h))))
                     (with_arrs (<[fresh (dom (arrs h)) := l ++ vs]> (arrs h)) h).
Proof.
  intros E Hvs. destruct vs as [|v vs]; [contradiction|].
  unfold append. rewrite E. reflexivity.
Qed.

Lemma contents_alloc h s l (x : list float) :
  contents h s = Some l ->
  contents (with_arrs (<[fresh (dom (arrs h)) := x]> (arrs h)) h) s = Some l.
Proof.
  destruct s as [a|]; simpl; [|trivial]. intros E.
  rewrite lookup_insert_ne; [exact E|].
  intros <-. rewrite fresh_arrs in E. discriminate.
Qed.

Lemma extend_loop_run p k : forall h s l,
  series_at h p s l ->
  exists h', extend_loop p k h = Ok tt h' /\
             (k = 0%nat -> h' = h) /\
             extended h h' p s l (replicate k (filler s)).
Proof.
  induction k as [|k IH]; intros h s l [Hp Hl].
  - exists h. split; [reflexivity|]. split; [reflexivity|].
    exists s. simpl. rewrite app_nil_r. repeat split; auto.
  - set (a := fresh (dom (arrs h))).
    set (h1 := with_arrs (<[a := l ++ [filler s]]> (arrs h)) h).
    set (h2 := with_objs (<[p := set_data (Some a) s]> (objs h1)) h1).
    assert (Hat2 : series_at h2 p (set_data (Some a) s) (l ++ [filler s])).
    { split; [apply lookup_insert_eq|]. simpl. apply lookup_insert_eq. }
    destruct (IH h2 _ _ Hat2) as (h' & Hrun & _ & s' & Hat' & Hk & Hst & Hsp & Hf & Hit & Hobj & Harr).
    exists h'. split; [|split; [discriminate|]].
    + simpl. rewrite (bind_ok _ _ _ _ _ (getTS_run _ _ _ Hp)).
      rewrite (bind_ok _ _ _ _ _ (append_run h _ _ [filler s] Hl ltac:(discriminate))).
      fold a. fold h1.
      rewrite (bind_ok _ _ _ _ _ (modTS_run p _ h1 s Hp)). fold h2. exact Hrun.
    + exists s'. simpl in Hat', Hf |- *.
      rewrite <- app_assoc in Hat'. simpl in Hat'.
      repeat split; try assumption; try apply Hat'.
      * intros q Hq. rewrite (Hobj q Hq). simpl. apply lookup_insert_ne. congruence.
      * intros b x Hb. apply Harr. simpl. rewrite lookup_insert_ne; [exact Hb|].
        intros <-. unfold a in Hb. rewrite fresh_arrs in Hb. discriminate.
Qed.

Lemma End_run h p s l :
  series_at h p s l -> End p h = Ok (end_of s (Z.of_nat (length l))) h.
Proof.
  intros [Hp Hl]. unfold End.
  rewrite (bind_ok _ _ _ _ _ (getTS_run _ _ _ Hp)).
  rewrite (bind_ok _ _ _ _ _ (len_run _ _ _ Hl)). reflexivity.
Qed.

(** C6.  On a series with positive step, [ExtendBy d] appends
    [floor(d / step)] samples when that is positive and none otherwise, each
    equal to the filler; for [d >= 0] the length grows by exactly
    [floor(d / step)], and for [d <= 0] nothing changes at all. *)
Theorem ExtendBy_appends_fillers h p s l d :
  series_at h p s l -> 0 < step s -> Int64.InRange d ->
  exists h',
    ExtendBy p d h = Ok tt h' /\
    extended h h' p s l (replicate (Z.to_nat (d / step s)) (filler s)) /\
    (0 <= d ->
     Z.of_nat (length (l ++ replicate (Z.to_nat (d / step s)) (filler s))) =
       Z.of_nat (length l) + d / step s) /\
    (d <= 0 -> h' = h).
Proof.
  intros Hat Hs Hd.
  assert (Hq : Int64.wrap (Z.quot d (step s)) = Z.quot d (step s)).
  { apply wrap_id. destruct (Z_le_gt_dec 0 d) as [Hpos|Hneg].
    - pose proof (quot_nonneg_bounds d (step s) Hpos).
      unfold Int64.InRange, Int64.min, Int64.max in *. lia.
    - pose proof (quot_pos_bounds (- d) (step s) ltac:(lia) Hs) as Hb.
      rewrite Z.quot_opp_l in Hb by lia.
      unfold Int64.InRange, Int64.min, Int64.max in *. lia. }
  assert (Hn : Z.to_nat (Z.quot d (step s)) = Z.to_nat (d / step s)).
  { destruct (Z_le_gt_dec 0 d) as [Hpos|Hneg].
    - rewrite Z.quot_div_nonneg by lia. reflexivity.
    - pose proof (quot_pos_bounds (- d) (step s) ltac:(lia) Hs) as Hb.
      rewrite Z.quot_opp_l in Hb by lia.
      assert (d / step s < 0) by (apply Z.div_lt_upper_bound; lia).
      lia. }
  destruct (extend_loop_run p (Z.to_nat (Z.quot d (step s))) h s l Hat)
    as (h' & Hrun & Hzero & Hext).
  exists h'. split; [|split; [|split]].
  - destruct Hat as [Hp Hl]. unfold ExtendBy.
    rewrite (bind_ok _ _ _ _ _ (getTS_run _ _ _ Hp)).
    rewrite (bind_ok _ _ _ _ _ (quot64_run d (step s) h ltac:(lia))).
    rewrite Hq. exact Hrun.
  - rewrite <- Hn. exact Hext.
  - intros Hpos. rewrite length_app, length_replicate.
    assert (0 <= d / step s) by (apply Z.div_pos; lia). lia.
  - intros Hneg. apply Hzero. rewrite Hn.
    assert (d / step s <= 0); [|lia].
    destruct (Z.eq_dec d 0) as [->|Hne]; [rewrite Z.div_0_l; lia|].
    assert (d / step s < 0) by (apply Z.div_lt_upper_bound; lia). lia.
Qed.

(** [ExtendTo] in terms of the saturating [time.Sub]: on a series with
    positive step, [ExtendTo t] changes nothing when [t] precedes [End()];
    otherwise, [t = End()] included, it appends exactly
    [trunc(Sub(t + step, End()) / step)] samples equal to the filler, at
    least one, and leaves key, start, step and filler as they were. *)
Theorem ExtendTo_appends_fillers h p s l t :
  series_at h p s l -> 0 < step s <= Int64.max ->
  let e := end_of s (Z.of_nat (length l)) in
  let points := Z.quot (Time.Sub (Time.Add t (step s)) e) (step s) in
  End p h = Ok e h /\
  (t < e -> ExtendTo p t h = Ok tt h) /\
  (e <= t ->
   1 <= points /\
   exists h', ExtendTo p t h = Ok tt h' /\
              extended h h' p s l (replicate (Z.to_nat points) (filler s))).
Proof.
  intros Hat Hs e points. pose proof (End_run h p s l Hat) as HEnd. fold e in HEnd.
  split; [exact HEnd|]. split.
  - intros Hlt. unfold ExtendTo. rewrite (bind_ok _ _ _ _ _ HEnd).
    unfold Time.Before. destruct (Z.ltb_spec t e); [reflexivity|lia].
  - intros Hge.
    assert (Hd : step s <= Time.Sub (Time.Add t (step s)) e <= Int64.max).
    { unfold Time.Sub, Time.Add, Int64.sat, Int64.min, Int64.max in *.
      destruct (Z.ltb_spec (t + step s - e) (- 2 ^ 63)); [lia|].
      destruct (Z.ltb_spec (2 ^ 63 - 1) (t + step s - e)); lia. }
    assert (Hd0 : 0 <= Time.Sub (Time.Add t (step s)) e) by lia.
    pose proof (quot_pos_bounds _ (step s) Hd0 (proj1 Hs)) as Hb.
    fold points in Hb.
    split; [nia|].
    destruct (extend_loop_run p (Z.to_nat points) h s l Hat) as (h' & Hrun & _ & Hext).
    exists h'. split; [|exact Hext].
    unfold ExtendTo. rewrite (bind_ok _ _ _ _ _ HEnd).
    unfold Time.Before. destruct (Z.ltb_spec t e); [lia|].
    destruct Hat as [Hp Hl].
    rewrite (bind_ok _ _ _ _ _ (getTS_run _ _ _ Hp)).
    rewrite (bind_ok _ _ _ _ _ (quot64_pos _ (step s) h (conj Hd0 (proj2 Hd)) (proj1 Hs))).
    exact Hrun.
Qed.

(** ** Copies *)

Lemma copy_loop_run src a (l : list float) k : forall i h dl,
  contents h src = Some l -> src <> Some a -> arrs h !! a = Some dl ->
  (i + k <= length l)%nat -> (i + k <= length dl)%nat ->
  exists h', copy_loop src (Some a) (Z.of_nat i) k h = Ok tt h' /\
             array_updated h h' a (fill_pure false nan l i k dl).
Proof.
  induction k as [|k IH]; intros i h dl Hsrc Hne Hdl Hl Hd; simpl.
  - exists h. split; [reflexivity|]. repeat split. symmetry. apply insert_id, Hdl.
  - destruct (lookup_lt_is_Some_2 l i ltac:(lia)) as [v Hv]. rewrite Hv.
    assert (Hlv : l !! Z.to_nat (Z.of_nat i) = Some v) by (rewrite Nat2Z.id; exact Hv).
    rewrite (bind_ok _ _ _ _ _ (load_run _ _ _ _ _ Hsrc (Nat2Z.is_nonneg i) Hlv)).
    destruct (store_run h (Some a) dl (Z.of_nat i) v Hdl ltac:(lia)) as (a' & Ha' & Hst).
    injection Ha' as <-. rewrite (bind_ok _ _ _ _ _ Hst). rewrite Nat2Z.id.
    replace (Z.of_nat i + 1) with (Z.of_nat (S i)) by lia.
    destruct (IH (S i) (with_arrs (<[a := <[i := v]> dl]> (arrs h)) h) (<[i := v]> dl))
      as (h' & Hrun & Ho & Hi' & Harr).
    + destruct src as [b|]; [|exact Hsrc].
      simpl. rewrite lookup_insert_ne by congruence. exact Hsrc.
    + exact Hne.
    + simpl. apply lookup_insert_eq.
    + lia.
    + rewrite length_insert. lia.
    + exists h'. split; [exact Hrun|]. repeat split; [exact Ho|exact Hi'|].
      rewrite Harr. simpl. apply insert_insert_eq.
Qed.

Lemma fill_pure_copy (l : list float) :
  fill_pure false nan l 0 (length l) (replicate (length l) 0%float) = l.
Proof.
  apply list_eq. intros j.
  rewrite fill_pure_multi by (rewrite length_replicate; lia).
  case_decide as Hj; [reflexivity|].
  rewrite !lookup_ge_None_2; [reflexivity| |rewrite length_replicate]; lia.
Qed.

(** [Data] allocates one new array holding the samples in order and changes
    nothing else. *)
Lemma Data_run h p s l :
  series_at h p s l ->
  exists a h',
    Data p h = Ok (Some a) h' /\ arrs h !! a = None /\ array_updated h h' a l.
Proof.
  intros [Hp Hl].
  set (a := fresh (dom (arrs h))).
  set (h1 := with_arrs (<[a := replicate (length l) 0%float]> (arrs h)) h).
  assert (Hfresh : arrs h !! a = None) by apply fresh_arrs.
  destruct (copy_loop_run (data s) a l (length l) 0%nat h1 (replicate (length l) 0%float))
    as (h' & Hrun & Ho & Hi & Harr).
  - apply contents_alloc, Hl.
  - intros E. rewrite E in Hl. simpl in Hl. congruence.
  - apply lookup_insert_eq.
  - lia.
  - rewrite length_replicate. lia.
  - exists a, h'. split; [|split; [exact Hfresh|]].
    + unfold Data. rewrite (bind_ok _ _ _ _ _ (getTS_run _ _ _ Hp)).
      rewrite (bind_ok _ _ _ _ _ (len_run _ _ _ Hl)).
      rewrite (bind_ok _ _ _ _ _ (make_run _ h (Nat2Z.is_nonneg _))).
      rewrite Nat2Z.id. fold a. fold h1.
      change 0 with (Z.of_nat 0). rewrite (bind_ok _ _ _ _ _ Hrun). reflexivity.
    + rewrite fill_pure_copy in Harr. repeat split; [exact Ho|exact Hi|].
      rewrite Harr. simpl. apply insert_insert_eq.
Qed.

Lemma Copy_run h p s l :
  series_at h p s l ->
  exists q a h',
    Copy p h = Ok q h' /\
    objs h !! q = None /\ arrs h !! a = None /\
    objs h' = <[q := mkTimeSeries (key s) (start s) (step s) (Some a) (filler s)]> (objs h) /\
    arrs h' = <[a := l]> (arrs h) /\
    iters h' = iters h.
Proof.
  intros Hat. destruct (Data_run h p s l Hat) as (a & h1 & Hrun & Hfresh & Ho & Hi & Harr).
  destruct Hat as [Hp Hl].
  eexists (fresh (dom (objs h1))), a, _. split; [|split; [|split; [|split; [|split]]]].
  - unfold Copy. rewrite (bind_ok _ _ _ _ _ (getTS_run _ _ _ Hp)).
    rewrite (bind_ok _ _ _ _ _ Hrun). apply newTS_run.
  - rewrite Ho. apply fresh_objs.
  - exact Hfresh.
  - simpl. rewrite Ho. reflexivity.
  - exact Harr.
  - exact Hi.
Qed.

(** A series is untouched by what happens to a freshly allocated object and
    a freshly allocated array. *)
Lemma series_at_fresh h h' p s l q c a x :
  series_at h p s l ->
  objs h !! q = None -> arrs h !! a = None ->
  objs h' = <[q := c]> (objs h) -> arrs h' = <[a := x]> (arrs h) ->
  series_at h' p s l /\ q <> p /\ data s <> Some a.
Proof.
  intros [Hp Hl] Hq Ha Ho Harr.
  assert (Hqp : q <> p) by (intros ->; congruence).
  assert (Hda : data s <> Some a).
  { intros E. rewrite E in Hl. simpl in Hl. congruence. }
  split; [|split; assumption]. split.
  - rewrite Ho. rewrite lookup_insert_ne by exact Hqp. exact Hp.
  - destruct (data s) as [b|]; [|exact Hl].
    simpl in *. rewrite Harr. rewrite lookup_insert_ne by congruence. exact Hl.
Qed.

Lemma series_at_frame h h' p s l :
  series_at h p s l ->
  objs h' !! p = objs h !! p ->
  (forall b, data s = Some b -> arrs h' !! b = arrs h !! b) ->
  series_at h' p s l.
Proof.
  intros [Hp Hl] Ho Ha. split; [congruence|].
  destruct (data s) as [b|]; [|exact Hl]. simpl in *. rewrite Ha by reflexivity. exact Hl.
Qed.

(** ** Transform *)

Lemma map_range_lookup f k : forall i (x : list float) j,
  (i + k <= length x)%nat ->
  map_range f i k x !! j =
    if decide (i <= j < i + k)%nat then f <$> x !! j else x !! j.
Proof.
  induction k as [|k IH]; intros i x j Hlen; simpl.
  - case_decide; [lia|reflexivity].
  - destruct (lookup_lt_is_Some_2 x i ltac:(lia)) as [v Hv]. rewrite Hv.
    rewrite IH by (rewrite length_insert; lia).
    destruct (decide (j = i)) as [->|Hne].
    + rewrite list_lookup_insert_eq by lia. rewrite Hv.
      repeat case_decide; try lia; reflexivity.
    + rewrite list_lookup_insert_ne by congruence.
      repeat case_decide; try lia; reflexivity.
Qed.

Lemma map_range_all f (l : list float) : map_range f 0 (length l) l = f <$> l.
Proof.
  apply list_eq. intros j. rewrite map_range_lookup by lia.
  rewrite list_lookup_fmap. case_decide as Hj; [reflexivity|].
  rewrite lookup_ge_None_2 by lia. reflexivity.
Qed.

Lemma transform_loop_run q a tr k : forall i h c x,
  objs h !! q = Some c -> data c = Some a -> arrs h !! a = Some x ->
  (i + k <= length x)%nat ->
  exists h', transform_loop q (Some a) tr (Z.of_nat i) k h = Ok tt h' /\
             array_updated h h' a (map_range (TransformValue tr) i k x).
Proof.
  induction k as [|k IH]; intros i h c x Hq Hd Hx Hlen; simpl.
  - exists h. split; [reflexivity|]. repeat split. symmetry. apply insert_id, Hx.
  - destruct (lookup_lt_is_Some_2 x i ltac:(lia)) as [v Hv]. rewrite Hv.
    assert (Hxv : x !! Z.to_nat (Z.of_nat i) = Some v) by (rewrite Nat2Z.id; exact Hv).
    rewrite (bind_ok _ _ _ _ _ (load_run h (Some a) _ _ _ Hx (Nat2Z.is_nonneg i) Hxv)).
    rewrite (bind_ok _ _ _ _ _ (getTS_run _ _ _ Hq)). rewrite Hd.
    destruct (store_run h (Some a) x (Z.of_nat i) (TransformValue tr v) Hx ltac:(lia))
      as (a' & Ha' & Hst).
    injection Ha' as <-. rewrite (bind_ok _ _ _ _ _ Hst). rewrite Nat2Z.id.
    replace (Z.of_nat i + 1) with (Z.of_nat (S i)) by lia.
    destruct (IH (S i) (with_arrs (<[a := <[i := TransformValue tr v]> x]> (arrs h)) h)
                c (<[i := TransformValue tr v]> x))
      as (h' & Hrun & Ho & Hi' & Harr).
    + exact Hq.
    + exact Hd.
    + simpl. apply lookup_insert_eq.
    + rewrite length_insert. lia.
    + exists h'. split; [exact Hrun|]. repeat split; [exact Ho|exact Hi'|].
      rewrite Harr. simpl. apply insert_insert_eq.
Qed.

(** C8.  [Transform] returns a new series with the start, step and filler
    of the original, the key [Name() + "(" + key + ")"], and as many samples,
    the i-th being the transform of the original's i-th; the original keeps
    every field and every sample. *)
Theorem Transform_pointwise h p s l tr :
  series_at h p s l ->
  exists q h' c,
    TimeSeries_Transform p tr h = Ok q h' /\
    q <> p /\
    series_at h' q c (TransformValue tr <$> l) /\
    start c = start s /\ step c = step s /\ filler c = filler s /\
    key c = Name tr +:+ "(" +:+ key s +:+ ")" /\
    length (TransformValue tr <$> l) = length l /\
    (forall i v, l !! i = Some v ->
                 (TransformValue tr <$> l) !! i = Some (TransformValue tr v)) /\
    series_at h' p s l.
Proof.
  intros Hat.
  destruct (Copy_run h p s l Hat) as (q & a & h1 & Hcopy & Hq & Ha & Ho & Harr & Hit).
  destruct (series_at_fresh h h1 p s l q _ a l Hat Hq Ha Ho Harr) as (Hat1 & Hqp & Hda).
  set (c0 := mkTimeSeries (key s) (start s) (step s) (Some a) (filler s)) in *.
  set (k := Name tr +:+ "(" +:+ key s +:+ ")").
  assert (Hq1 : objs h1 !! q = Some c0) by (rewrite Ho; apply lookup_insert_eq).
  set (h2 := with_objs (<[q := set_key k c0]> (objs h1)) h1).
  assert (Hq2 : objs h2 !! q = Some (set_key k c0)) by apply lookup_insert_eq.
  assert (Ha2 : arrs h2 !! a = Some l) by (simpl; rewrite Harr; apply lookup_insert_eq).
  destruct (transform_loop_run q a tr (length l) 0%nat h2 _ l Hq2 eq_refl Ha2 ltac:(lia))
    as (h' & Hloop & Ho' & Hi' & Harr').
  rewrite map_range_all in Harr'.
  exists q, h', (set_key k c0).
  split; [|split; [exact Hqp|split; [|repeat split]]].
  - unfold TimeSeries_Transform. rewrite (bind_ok _ _ _ _ _ Hcopy).
    rewrite (bind_ok _ _ _ _ _ (getTS_run _ _ _ (proj1 Hat1))).
    rewrite (bind_ok _ _ _ _ _ (modTS_run q _ h1 c0 Hq1)). fold k. fold h2.
    rewrite (bind_ok _ _ _ _ _ (getTS_run _ _ _ Hq2)).
    rewrite (bind_ok _ _ _ _ _ (len_run h2 (Some a) _ Ha2)). rewrite Nat2Z.id.
    change 0 with (Z.of_nat 0). rewrite (bind_ok _ _ _ _ _ Hloop). reflexivity.
  - split; [rewrite Ho'; exact Hq2|].
    simpl. rewrite Harr'. apply lookup_insert_eq.
  - apply length_fmap.
  - intros i v Hv. rewrite list_lookup_fmap, Hv. reflexivity.
  - rewrite Ho'. simpl. rewrite lookup_insert_ne by exact Hqp. apply Hat1.
  - destruct Hat1 as [_ Hl1]. destruct (data s) as [b|]; [|exact Hl1].
    simpl in *. rewrite Harr'. rewrite lookup_insert_ne by congruence. exact Hl1.
Qed.

(** ** Point update and independence of copies *)

Lemma index_heap p t h i h' : index p t h = Ok i h' -> h' = h.
Proof.
  unfold index, bind, getTS, len, quot64, ret, panic.
  destruct (objs h !! p) as [s|]; [|discriminate].
  destruct (Time.Before t (start s)); [congruence|].
  destruct (contents h (data s)); [|discriminate].
  destruct (Time.After t _); [congruence|].
  destruct (step s =? 0); [discriminate|congruence].
Qed.

(** [GetAt] reads the object and its samples and nothing else. *)
Lemma GetAt_same h h' p s l t :
  series_at h p s l -> series_at h' p s l ->
  outcome (GetAt p t h) = outcome (GetAt p t h').
Proof.
  intros [Hp Hl] [Hp' Hl'].
  unfold GetAt, index, bind, getTS, len, load, quot64, ret, panic.
  rewrite Hp, Hp'. destruct (Time.Before t (start s)); [reflexivity|].
  rewrite Hl, Hl'. destruct (Time.After t _); [reflexivity|].
  destruct (step s =? 0); [reflexivity|].
  destruct (_ =? -1); [reflexivity|].
  rewrite Hp, Hp', Hl, Hl'.
  destruct (l !! _); [|reflexivity]. destruct (in_bounds _ _); reflexivity.
Qed.

Lemma store_frame s0 i v h h' :
  store s0 i v h = Ok tt h' ->
  objs h' = objs h /\ iters h' = iters h /\
  (forall b, s0 <> Some b -> arrs h' !! b = arrs h !! b).
Proof.
  unfold store. destruct s0 as [a|]; [|discriminate].
  destruct (arrs h !! a) as [x|]; [|discriminate].
  destruct (in_bounds i x); [|discriminate].
  intros E. injection E as <-. simpl. repeat split.
  intros b Hb. apply lookup_insert_ne. congruence.
Qed.

Lemma SetAt_frame q c t v h r h' :
  objs h !! q = Some c -> SetAt q t v h = Ok r h' ->
  objs h' = objs h /\ iters h' = iters h /\
  (forall b, data c <> Some b -> arrs h' !! b = arrs h !! b).
Proof.
  intros Hq. unfold SetAt, bind.
  destruct (index q t h) as [i h1|msg] eqn:Hi; [|discriminate].
  apply index_heap in Hi. subst h1.
  destruct (i =? -1).
  { unfold ret. intros E. injection E as _ <-. auto. }
  rewrite (getTS_run _ _ _ Hq).
  destruct (store (data c) i v h) as [[] h2|msg] eqn:Hst; [|discriminate].
  unfold ret. intros E. injection E as _ <-.
  eapply store_frame, Hst.
Qed.

(** Point update on a series with positive step, the range being the one
    [index] computes ([last_sample]): an in-range write replaces the one
    sample at the mapped index and is read back, and an out-of-range write
    returns [false] and changes nothing. *)
Lemma SetAt_positive_step h p s l t v :
  series_at h p s l -> 0 < step s <= Int64.max ->
  let n := Z.of_nat (length l) in
  let i := Z.quot (t - start s) (step s) in
  (start s <= t <= last_sample s n ->
   exists h', SetAt p t v h = Ok true h' /\
              series_at h' p s (<[Z.to_nat i := v]> l) /\
              GetAt p t h' = Ok (v, true) h') /\
  (~ (start s <= t <= last_sample s n) -> SetAt p t v h = Ok false h).
Proof.
  intros Hat Hs n i. split.
  - intros Ht.
    destruct (index_of_in s n t Hs (Nat2Z.is_nonneg _) Ht) as (Hi & Hb & _). fold i in Hi, Hb.
    destruct Hat as [Hp Hl].
    destruct (store_run h (data s) l i v Hl Hb) as (a & Ha & Hst).
    set (h' := with_arrs (<[a := <[Z.to_nat i := v]> l]> (arrs h)) h) in *.
    assert (Hat' : series_at h' p s (<[Z.to_nat i := v]> l)).
    { split; [exact Hp|]. rewrite Ha. simpl. apply lookup_insert_eq. }
    exists h'. split; [|split; [exact Hat'|]].
    + unfold SetAt.
      rewrite (bind_ok _ _ _ _ _ (index_run _ _ _ _ t (conj Hp Hl) ltac:(lia))).
      fold n. rewrite Hi. destruct (Z.eqb_spec i (-1)); [lia|].
      rewrite (bind_ok _ _ _ _ _ (getTS_run _ _ _ Hp)).
      rewrite (bind_ok _ _ _ _ _ Hst). reflexivity.
    + eapply GetAt_run_in; [exact Hat'|exact Hs| |].
      * rewrite length_insert. exact Ht.
      * fold i. apply list_lookup_insert_eq. lia.
  - intros Ht. unfold SetAt.
    rewrite (bind_ok _ _ _ _ _ (index_run _ _ _ _ t Hat ltac:(lia))).
    rewrite index_of_out by assumption. reflexivity.
Qed.

(** C10.  [Copy] returns a new series whose key, start, step, filler and
    samples equal the original's; a [SetAt] on the copy changes no [GetAt]
    of the original, and a [SetAt] on the original none of the copy.
    [Data] returns the samples, in order, in an array of its own: a write
    into it changes neither the original's samples nor its [GetAt]. *)
Theorem Copy_is_independent h p s l :
  series_at h p s l ->
  (exists q h1 c,
     Copy p h = Ok q h1 /\ q <> p /\
     series_at h1 q c l /\ series_at h1 p s l /\
     key c = key s /\ start c = start s /\ step c = step s /\ filler c = filler s /\
     (forall t v r h2, SetAt q t v h1 = Ok r h2 ->
        series_at h2 p s l /\
        forall t', outcome (GetAt p t' h2) = outcome (GetAt p t' h1)) /\
     (forall t v r h2, SetAt p t v h1 = Ok r h2 ->
        series_at h2 q c l /\
        forall t', outcome (GetAt q t' h2) = outcome (GetAt q t' h1))) /\
  (exists d hd,
     Data p h = Ok d hd /\ contents hd d = Some l /\ series_at hd p s l /\
     (forall i v hd', store d i v hd = Ok tt hd' ->
        series_at hd' p s l /\
        forall t', outcome (GetAt p t' hd') = outcome (GetAt p t' hd))).
Proof.
  intros Hat. split.
  - destruct (Copy_run h p s l Hat) as (q & a & h1 & Hcopy & Hq & Ha & Ho & Harr & Hit).
    destruct (series_at_fresh h h1 p s l q _ a l Hat Hq Ha Ho Harr) as (Hat1 & Hqp & Hda).
    set (c := mkTimeSeries (key s) (start s) (step s) (Some a) (filler s)) in *.
    assert (Hatq : series_at h1 q c l).
    { split; [rewrite Ho; apply lookup_insert_eq|].
      simpl. rewrite Harr. apply lookup_insert_eq. }
    exists q, h1, c. split; [exact Hcopy|]. split; [exact Hqp|].
    split; [exact Hatq|]. split; [exact Hat1|].
    split; [reflexivity|]. split; [reflexivity|]. split; [reflexivity|].
    split; [reflexivity|]. split.
    + intros t v r h2 Hset.
      destruct (SetAt_frame q c t v h1 r h2 (proj1 Hatq) Hset) as (Ho2 & _ & Ha2).
      assert (Hat2 : series_at h2 p s l).
      { apply (series_at_frame h1); [exact Hat1|rewrite Ho2; reflexivity|].
        intros b Hb. apply Ha2. simpl. congruence. }
      split; [exact Hat2|]. intros t'. apply (GetAt_same h2 h1 p s l); assumption.
    + intros t v r h2 Hset.
      destruct (SetAt_frame p s t v h1 r h2 (proj1 Hat1) Hset) as (Ho2 & _ & Ha2).
      assert (Hat2 : series_at h2 q c l).
      { apply (series_at_frame h1); [exact Hatq|rewrite Ho2; reflexivity|].
        intros b Hb. apply Ha2. simpl in Hb. congruence. }
      split; [exact Hat2|]. intros t'. apply (GetAt_same h2 h1 q c l); assumption.
  - destruct (Data_run h p s l Hat) as (a & hd & Hrun & Hfresh & Ho & Hi & Harr).
    assert (Hda : data s <> Some a).
    { intros E. destruct Hat as [_ Hl]. rewrite E in Hl. simpl in Hl. congruence. }
    assert (Hatd : series_at hd p s l).
    { apply (series_at_frame h); [exact Hat|rewrite Ho; reflexivity|].
      intros b Hb. rewrite Harr. apply lookup_insert_ne. congruence. }
    exists (Some a), hd. split; [exact Hrun|]. split.
    { simpl. rewrite Harr. apply lookup_insert_eq. }
    split; [exact Hatd|].
    intros i v hd' Hst. destruct (store_frame _ _ _ _ _ Hst) as (Ho' & _ & Ha').
    assert (Hatd' : series_at hd' p s l).
    { apply (series_at_frame hd); [exact Hatd|rewrite Ho'; reflexivity|].
      intros b Hb. apply Ha'. congruence. }
    split; [exact Hatd'|]. intros t'. apply (GetAt_same hd' hd p s l); assumption.
Qed.

(** ** Iteration *)

Lemma getIt_run h it i : iters h !! it = Some i -> getIt it h = Ok i h.
Proof. intros E. unfold getIt. rewrite E. reflexivity. Qed.

Lemma modIt_run h it f i :
  iters h !! it = Some i ->
  modIt it f h = Ok tt (with_iters (<[it := f i]> (iters h)) h).
Proof. intros E. unfold modIt. rewrite E. reflexivity. Qed.

(** A read at the [j]-th step, when the timestamp of the last sample is
    computed without overflow. *)
Lemma GetAt_at_step h p s l j :
  series_at h p s l -> 0 < step s <= Int64.max ->
  Int64.InRange ((Z.of_nat (length l) - 1) * step s) ->
  GetAt p (start s + Z.of_nat j * step s) h = Ok (read_at l j) h.
Proof.
  intros Hat Hs Hfit. unfold read_at.
  pose proof (last_sample_exact s (Z.of_nat (length l)) Hfit) as Hlast.
  destruct (l !! j) as [v|] eqn:Hv.
  - pose proof (lookup_lt_Some _ _ _ Hv) as Hj.
    eapply GetAt_run_in; [exact Hat|exact Hs| |].
    + rewrite Hlast. nia.
    + replace (start s + Z.of_nat j * step s - start s) with (Z.of_nat j * step s) by lia.
      rewrite Z.quot_mul by lia. rewrite Nat2Z.id. exact Hv.
  - pose proof (lookup_ge_None_1 _ _ Hv) as Hj.
    eapply GetAt_run_out; [exact Hat|lia|]. rewrite Hlast. nia.
Qed.

Lemma Next_run h p s l it j :
  series_at h p s l -> 0 < step s <= Int64.max ->
  Int64.InRange ((Z.of_nat (length l) - 1) * step s) ->
  iters h !! it = Some (mkIterator (start s + Z.of_nat j * step s) p) ->
  Next it h =
    Ok (read_at l j)
       (with_iters (<[it := mkIterator (start s + Z.of_nat (S j) * step s) p]> (iters h)) h).
Proof.
  intros Hat Hs Hfit Hit. unfold Next.
  rewrite (bind_ok _ _ _ _ _ (getIt_run _ _ _ Hit)). cbn [series cursor].
  rewrite (bind_ok _ _ _ _ _ (GetAt_at_step h p s l j Hat Hs Hfit)).
  rewrite (bind_ok _ _ _ _ _ (getIt_run _ _ _ Hit)). cbn [series cursor].
  rewrite (bind_ok _ _ _ _ _ (getTS_run _ _ _ (proj1 Hat))).
  rewrite (bind_ok _ _ _ _ _ (modIt_run _ _ _ _ Hit)).
  unfold ret, set_cursor, Time.Add. cbn [series cursor].
  replace (start s + Z.of_nat j * step s + step s)
    with (start s + Z.of_nat (S j) * step s) by lia.
  reflexivity.
Qed.

Lemma Next_times_run p s l it k : forall j h,
  series_at h p s l -> 0 < step s <= Int64.max ->
  Int64.InRange ((Z.of_nat (length l) - 1) * step s) ->
  iters h !! it = Some (mkIterator (start s + Z.of_nat j * step s) p) ->
  exists h',
    Next_times it k h = Ok (read_at l <$> seq j k) h' /\
    series_at h' p s l /\
    iters h' !! it = Some (mkIterator (start s + Z.of_nat (j + k) * step s) p).
Proof.
  induction k as [|k IH]; intros j h Hat Hs Hfit Hit.
  - exists h. split; [reflexivity|]. split; [exact Hat|].
    rewrite Nat.add_0_r. exact Hit.
  - set (h1 := with_iters (<[it := mkIterator (start s + Z.of_nat (S j) * step s) p]> (iters h)) h).
    destruct (IH (S j) h1) as (h' & Hrun & Hat' & Hit');
      [exact Hat|exact Hs|exact Hfit|apply lookup_insert_eq|].
    exists h'. split; [|split; [exact Hat'|]].
    + simpl. rewrite (bind_ok _ _ _ _ _ (Next_run h p s l it j Hat Hs Hfit Hit)).
      fold h1. rewrite (bind_ok _ _ _ _ _ Hrun). reflexivity.
    + replace (j + S k)%nat with (S j + k)%nat by lia. exact Hit'.
Qed.

Lemma read_all (l : list float) :
  read_at l <$> seq 0 (length l) = (fun v => (v, true)) <$> l.
Proof.
  apply list_eq. intros i. rewrite !list_lookup_fmap.
  destruct (l !! i) as [v|] eqn:Hv.
  - rewrite lookup_seq_lt by (eapply lookup_lt_Some; exact Hv).
    simpl. unfold read_at. rewrite Hv. reflexivity.
  - rewrite lookup_seq_ge by (apply lookup_ge_None_1; exact Hv). reflexivity.
Qed.

(** C9, amended.  On a series with positive step and [N] samples for which
    [(N-1)*step] does not overflow [int64], a fresh iterator's first [N]
    calls of [Next] yield the samples in order, each found, every later call
    yields not-found, and each call advances the cursor by one step. *)
Theorem Iterator_yields_data h p s l :
  series_at h p s l -> 0 < step s <= Int64.max ->
  Int64.InRange ((Z.of_nat (length l) - 1) * step s) ->
  iterates_over h p s l.
Proof.
  intros Hat Hs Hfit m.
  set (it := fresh (dom (iters h))).
  set (h0 := with_iters (<[it := mkIterator (start s) p]> (iters h)) h).
  assert (Hat0 : series_at h0 p s l) by exact Hat.
  assert (Hit0 : iters h0 !! it = Some (mkIterator (start s + Z.of_nat 0 * step s) p)).
  { replace (start s + Z.of_nat 0 * step s) with (start s) by lia. apply lookup_insert_eq. }
  destruct (Next_times_run p s l it (length l + m) 0%nat h0 Hat0 Hs Hfit Hit0)
    as (h' & Hrun & _ & Hit').
  exists it, h', (read_at l <$> seq (length l) m).
  split; [|split; [|split]].
  - assert (Hnew : TimeSeries_Iterator p h = Ok it h0).
    { unfold TimeSeries_Iterator.
      rewrite (bind_ok _ _ _ _ _ (getTS_run _ _ _ (proj1 Hat))). reflexivity. }
    rewrite (bind_ok _ _ _ _ _ Hnew).
    rewrite (bind_ok _ _ _ _ _ Hrun).
    rewrite seq_app, fmap_app, read_all. reflexivity.
  - rewrite length_fmap, length_seq. reflexivity.
  - apply Forall_fmap, Forall_seq. intros j Hj. simpl. unfold read_at.
    rewrite lookup_ge_None_2 by lia. reflexivity.
  - exact Hit'.
Qed.

Lemma wide_step_heap_series :
  series_at wide_step_heap 0%nat (mkTimeSeries "k" 100 (2 ^ 62) (Some 1%nat) nan)
    [1%float; 2%float; 3%float].
Proof. vm_compute. split; reflexivity. Qed.

(** C9 as stated fails when [(N-1)*step] overflows: with three samples
    2^62 ns apart [index] computes the last timestamp as [start - 2^63], so
    the very first [Next] of a fresh iterator returns not-found. *)
Lemma iterator_overflow_counterexample :
  series_at wide_step_heap 0%nat (mkTimeSeries "k" 100 (2 ^ 62) (Some 1%nat) nan)
    [1%float; 2%float; 3%float] /\
  0 < 2 ^ 62 <= Int64.max /\
  ~ iterates_over wide_step_heap 0%nat (mkTimeSeries "k" 100 (2 ^ 62) (Some 1%nat) nan)
      [1%float; 2%float; 3%float].
Proof.
  split; [exact wide_step_heap_series|]. split; [unfold Int64.max; lia|].
  intros H. destruct (H 0%nat) as (it & h' & rest & Hrun & _).
  vm_compute in Hrun. discriminate Hrun.
Qed.

(** With [(n-1)*step] representable, the timestamp of the last sample is
    the exact [start + (n-1)*step]. *)
Lemma GetAt_exact_bound h p s l t :
  series_at h p s l -> 0 < step s <= Int64.max ->
  Int64.InRange ((Z.of_nat (length l) - 1) * step s) ->
  (start s <= t <= start s + (Z.of_nat (length l) - 1) * step s ->
   exists v, l !! Z.to_nat (Z.quot (t - start s) (step s)) = Some v /\
             GetAt p t h = Ok (v, true) h) /\
  (~ (start s <= t <= start s + (Z.of_nat (length l) - 1) * step s) ->
   GetAt p t h = Ok (nan, false) h).
Proof.
  intros Hat Hs Hfit. rewrite <- (last_sample_exact s _ Hfit). split.
  - intros Ht.
    destruct (index_of_in s _ t Hs (Nat2Z.is_nonneg _) Ht) as (_ & Hb & _).
    destruct (in_bounds_lookup _ l Hb) as [v Hv].
    exists v. split; [exact Hv|]. eapply GetAt_run_in; eassumption.
  - intros Ht. eapply GetAt_run_out; [eassumption|lia|exact Ht].
Qed.

(** ** The properties at work on the sample series *)

Lemma GetAt_exactly_in_range_witness :
  (exists v, [1%float; 2%float; 3%float] !! 1%nat = Some v /\
             GetAt 0%nat 1015 sample_heap = Ok (v, true) sample_heap) /\
  GetAt 0%nat 1021 sample_heap = Ok (nan, false) sample_heap.
Proof.
  split.
  - destruct (GetAt_exactly_in_range sample_heap 0%nat sample_series
                [1%float; 2%float; 3%float] 1015) as [Hin _].
    + vm_compute. split; reflexivity.
    + unfold Int64.max. simpl. lia.
    + destruct Hin as (_ & Hv & _); [vm_compute; split; congruence|exact Hv].
  - destruct (GetAt_exactly_in_range sample_heap 0%nat sample_series
                [1%float; 2%float; 3%float] 1021) as [_ Hout].
    + vm_compute. split; reflexivity.
    + unfold Int64.max. simpl. lia.
    + apply Hout. vm_compute. intros [_ H]. apply H. reflexivity.
Defined.

Lemma ExtendBy_appends_fillers_witness :
  exists h', ExtendBy 0%nat 25 sample_heap = Ok tt h' /\
             extended sample_heap h' 0%nat sample_series
               [1%float; 2%float; 3%float] [nan; nan].
Proof.
  destruct (ExtendBy_appends_fillers sample_heap 0%nat sample_series
              [1%float; 2%float; 3%float] 25) as (h' & Hrun & Hext & _).
  - vm_compute. split; reflexivity.
  - simpl. lia.
  - unfold Int64.InRange, Int64.min, Int64.max. lia.
  - exists h'. split; [exact Hrun|exact Hext].
Defined.

Lemma ExtendTo_appends_fillers_witness :
  exists h', ExtendTo 0%nat 1030 sample_heap = Ok tt h' /\
             extended sample_heap h' 0%nat sample_series
               [1%float; 2%float; 3%float] [nan].
Proof.
  destruct (ExtendTo_appends_fillers sample_heap 0%nat sample_series
              [1%float; 2%float; 3%float] 1030) as (_ & _ & Hge).
  - vm_compute. split; reflexivity.
  - unfold Int64.max. simpl. lia.
  - destruct Hge as (_ & h' & Hrun & Hext); [vm_compute; congruence|].
    exists h'. split; [exact Hrun|exact Hext].
Defined.

Lemma Transform_pointwise_witness :
  exists q h' c,
    TimeSeries_Transform 0%nat double sample_heap = Ok q h' /\
    series_at h' q c [2%float; 4%float; 6%float] /\
    key c = "double(x)" /\
    series_at h' 0%nat sample_series [1%float; 2%float; 3%float].
Proof.
  destruct (Transform_pointwise sample_heap 0%nat sample_series
              [1%float; 2%float; 3%float] double)
    as (q & h' & c & Hrun & _ & Hq & _ & _ & _ & Hkey & _ & _ & Hp).
  - vm_compute. split; reflexivity.
  - exists q, h', c. split; [exact Hrun|]. split; [exact Hq|]. split; [exact Hkey|exact Hp].
Defined.

Lemma Iterator_yields_data_witness :
  iterates_over sample_heap 0%nat sample_series [1%float; 2%float; 3%float].
Proof.
  apply (Iterator_yields_data sample_heap 0%nat sample_series [1%float; 2%float; 3%float]).
  - vm_compute. split; reflexivity.
  - unfold Int64.max. simpl. lia.
  - unfold Int64.InRange, Int64.min, Int64.max. simpl. lia.
Defined.

Lemma Copy_is_independent_witness :
  exists q h1 c,
    Copy 0%nat sample_heap = Ok q h1 /\ q <> 0%nat /\
    series_at h1 q c [1%float; 2%float; 3%float] /\
    series_at h1 0%nat sample_series [1%float; 2%float; 3%float] /\
    forall t v r h2, SetAt q t v h1 = Ok r h2 ->
      forall t', outcome (GetAt 0%nat t' h2) = outcome (GetAt 0%nat t' h1).
Proof.
  destruct (Copy_is_independent sample_heap 0%nat sample_series
              [1%float; 2%float; 3%float]) as [(q & h1 & c & Hrun & Hq & Hc & Hp & _ & _ & _ & _ & Hset & _) _].
  - vm_compute. split; reflexivity.
  - exists q, h1, c. split; [exact Hrun|]. split; [exact Hq|]. split; [exact Hc|].
    split; [exact Hp|]. intros t v r h2 E. apply (Hset t v r h2 E).
Defined.

Example copy_then_write_runs :
  outcome (copy_then_write sample_heap) = inl ((2%float, true), (9%float, true)).
Proof. vm_compute. reflexivity. Qed.

(** * Further properties of the package *)

(** ** The outcomes of construction *)

Lemma sat_le z : 0 <= z -> Int64.sat z <= z.
Proof.
  intros Hz. unfold Int64.sat, Int64.min, Int64.max.
  destruct (Z.ltb_spec z (- 2 ^ 63)); [lia|].
  destruct (Z.ltb_spec (2 ^ 63 - 1) z); lia.
Qed.

Lemma new_size_pos_step now start_ end_ step_ values :
  0 < step_ ->
  eff_start now start_ <= eff_end now start_ end_ step_ values ->
  new_size now start_ end_ step_ values =
    Z.quot (Time.Sub (eff_end now start_ end_ step_ values) (eff_start now start_)) step_ /\
  0 <= new_size now start_ end_ step_ values /\
  new_size now start_ end_ step_ values * step_ <=
    Time.Sub (eff_end now start_ end_ step_ values) (eff_start now start_) <= Int64.max.
Proof.
  intros Hstep Hle. unfold new_size, Time.Sub.
  set (d := Int64.sat (eff_end now start_ end_ step_ values - eff_start now start_)).
  assert (Hd : 0 <= d) by (apply sat_nonneg; lia).
  pose proof (sat_range (eff_end now start_ end_ step_ values - eff_start now start_)) as Hr.
  fold d in Hr.
  pose proof (quot_pos_bounds d step_ Hd Hstep) as Hq.
  rewrite wrap_id by (unfold Int64.InRange, Int64.min, Int64.max in *; lia).
  unfold Int64.InRange in Hr. split; [reflexivity|]. split; [lia|]. split; [lia|lia].
Qed.

(** With allocation unbounded, every call of [NewTimeSeries] ends in one of
    four ways, decided by the step and the effective bounds: the zero-step
    error, with nothing allocated; the start-after-end error; a panic of
    [make], which needs a negative step; or a series with the given key and
    step, the effective start and [new_size] samples. *)
Theorem NewTimeSeries_outcome_cases now h key_ start_ end_ step_ values :
  let s' := eff_start now start_ in
  let e' := eff_end now start_ end_ step_ values in
  let n := new_size now start_ end_ step_ values in
  (step_ = 0 /\
   NewTimeSeries now key_ start_ end_ step_ values h = Ok (inr ErrStepZero) h) \/
  (step_ <> 0 /\ e' < s' /\
   exists h', NewTimeSeries now key_ start_ end_ step_ values h =
                Ok (inr (ErrStartAfterEnd s' e')) h') \/
  (step_ < 0 /\ s' <= e' /\ n < 0 /\
   NewTimeSeries now key_ start_ end_ step_ values h = Panic bad_len) \/
  (step_ <> 0 /\ s' <= e' /\ 0 <= n /\
   exists p h' s l,
     NewTimeSeries now key_ start_ end_ step_ values h = Ok (inl p) h' /\
     series_at h' p s l /\ Z.of_nat (length l) = n /\
     key s = key_ /\ start s = s' /\ step s = step_).
Proof.
  intros s' e' n.
  destruct (Z.eq_dec step_ 0) as [->|Hstep].
  { left. split; [reflexivity|apply NewTimeSeries_step_zero]. }
  right. destruct (Z_lt_le_dec e' s') as [Hlt|Hle].
  { left. split; [exact Hstep|]. split; [exact Hlt|].
    apply NewTimeSeries_start_after_end; assumption. }
  right. destruct (Z_lt_le_dec n 0) as [Hneg|Hsize].
  - left. split; [|split; [exact Hle|split; [exact Hneg|]]].
    + destruct (Z_lt_le_dec step_ 0) as [Hs|Hs]; [exact Hs|].
      pose proof (new_size_pos_step now start_ end_ step_ values ltac:(lia) Hle) as (_ & Hn & _).
      fold n in Hn. lia.
    + apply NewTimeSeries_negative_size; assumption.
  - right. split; [exact Hstep|]. split; [exact Hle|]. split; [exact Hsize|].
    destruct (NewTimeSeries_run now h key_ _ _ _ values Hstep Hle Hsize)
      as (p & a & h' & Hrun & _ & _ & Ho & Ha & _).
    exists p, h',
      (mkTimeSeries key_ s' step_ (Some a) match values with [v] => v | _ => nan end).
    eexists. split; [exact Hrun|]. split; [|split; [|repeat split]].
    + split; [rewrite Ho; apply lookup_insert_eq|].
      simpl. rewrite Ha. apply lookup_insert_eq.
    + rewrite fill_pure_length, length_replicate. fold n. lia.
Qed.

(** X2.  A series built with a positive step ends at
    [start' + n*step] exactly, which is never after the requested end, and,
    when the requested span fits a [Duration], less than one step before
    it. *)
Theorem NewTimeSeries_End_within_a_step now h key_ start_ end_ step_ values :
  0 < step_ ->
  eff_start now start_ <= eff_end now start_ end_ step_ values ->
  let s' := eff_start now start_ in
  let e' := eff_end now start_ end_ step_ values in
  let n := new_size now start_ end_ step_ values in
  exists p h',
    NewTimeSeries now key_ start_ end_ step_ values h = Ok (inl p) h' /\
    Start p h' = Ok s' h' /\ Step p h' = Ok step_ h' /\
    End p h' = Ok (s' + n * step_) h' /\
    s' + n * step_ <= e' /\
    (e' - s' <= Int64.max -> e' - (s' + n * step_) < step_).
Proof.
  intros Hstep Hle s' e' n.
  destruct (new_size_pos_step now start_ end_ step_ values Hstep Hle)
    as (Hq & Hsize & Hmul & Hmax).
  fold n s' e' in Hq, Hsize, Hmul, Hmax.
  assert (Hnz : step_ <> 0) by lia.
  destruct (NewTimeSeries_run now h key_ _ _ _ values Hnz Hle Hsize)
    as (p & a & h' & Hrun & _ & _ & Ho & Ha & _).
  set (s := mkTimeSeries key_ s' step_ (Some a)
              match values with [v] => v | _ => nan end) in *.
  assert (Hp : objs h' !! p = Some s) by (rewrite Ho; apply lookup_insert_eq).
  assert (Hat : series_at h' p s
                  (fill_pure (length values =? 1)%nat (filler s) values 0
                     (Z.to_nat n) (replicate (Z.to_nat n) 0%float))).
  { split; [exact Hp|]. simpl. rewrite Ha. apply lookup_insert_eq. }
  exists p, h'. split; [exact Hrun|].
  split; [unfold Start; rewrite (bind_ok _ _ _ _ _ (getTS_run _ _ _ Hp)); reflexivity|].
  split; [unfold Step; rewrite (bind_ok _ _ _ _ _ (getTS_run _ _ _ Hp)); reflexivity|].
  split; [|split].
  - rewrite (End_run _ _ _ _ Hat). f_equal.
    rewrite fill_pure_length, length_replicate, Z2Nat.id by lia.
    unfold end_of, Time.Add, Int64.mul. simpl.
    rewrite wrap_id; [reflexivity|].
    unfold Int64.InRange, Int64.min, Int64.max in *. nia.
  - unfold Time.Sub in Hmul.
    pose proof (sat_le (e' - s') ltac:(lia)). lia.
  - intros Hfit. unfold Time.Sub in Hq.
    rewrite sat_id in Hq by (unfold Int64.InRange, Int64.min; lia).
    pose proof (quot_pos_bounds (e' - s') step_ ltac:(lia) Hstep) as Hb.
    rewrite <- Hq in Hb. lia.
Qed.

Lemma NewTimeSeries_End_within_a_step_witness :
  exists p h',
    NewTimeSeries 2000 "x" 1000 1055 10 [7%float] empty_heap = Ok (inl p) h' /\
    Start p h' = Ok 1000 h' /\ Step p h' = Ok 10 h' /\
    End p h' = Ok 1050 h' /\ 1050 <= 1055 /\
    (1055 - 1000 <= Int64.max -> 1055 - 1050 < 10).
Proof.
  apply (NewTimeSeries_End_within_a_step 2000 empty_heap "x" 1000 1055 10 [7%float]);
    vm_compute; congruence.
Defined.

(** ** The convenience constructors *)

Lemma mul_exact a b : Int64.InRange (a * b) -> Int64.mul a b = a * b.
Proof. intros H. unfold Int64.mul. apply wrap_id, H. Qed.

Lemma quot_add_step a b : 0 <= a -> 0 < b -> Z.quot (a + b) b = Z.quot a b + 1.
Proof.
  intros Ha Hb. rewrite !Z.quot_div_nonneg by lia.
  replace (a + b) with (a + 1 * b) by lia. apply Z.div_add. lia.
Qed.

Lemma End_exact h p s l :
  series_at h p s l -> Int64.InRange (Z.of_nat (length l) * step s) ->
  End p h = Ok (start s + Z.of_nat (length l) * step s) h.
Proof.
  intros Hat Hfit. rewrite (End_run _ _ _ _ Hat).
  unfold end_of, Time.Add. rewrite mul_exact by exact Hfit. reflexivity.
Qed.

(** X3.  [NewTimeSeriesOfData], with a start after the zero time, a positive
    step and [len(data)*step] within a [Duration]: the series holds exactly
    [data], in order, and ends [len(data)] steps after its start.  Its
    filler is NaN, except that a single sample is also taken as the
    filler. *)
Theorem NewTimeSeriesOfData_holds_data now h key_ start_ step_ data_ :
  0 < start_ -> 0 < step_ ->
  Z.of_nat (length data_) * step_ <= Int64.max ->
  exists p h' s,
    NewTimeSeriesOfData now key_ start_ step_ data_ h = Ok (inl p) h' /\
    series_at h' p s data_ /\
    key s = key_ /\ start s = start_ /\ step s = step_ /\
    filler s = match data_ with [v] => v | _ => nan end /\
    End p h' = Ok (start_ + Z.of_nat (length data_) * step_) h'.
Proof.
  intros Hstart Hstep Hfit.
  set (n := Z.of_nat (length data_)) in *.
  assert (Hn : 0 <= n) by (unfold n; lia).
  assert (Hr : Int64.InRange (n * step_))
    by (unfold Int64.InRange, Int64.min, Int64.max in *; nia).
  assert (Es : eff_start now start_ = start_).
  { unfold eff_start, Time.IsZero, Time.zero.
    destruct (Z.eqb_spec start_ 0); [lia|reflexivity]. }
  assert (Ee : eff_end now start_ Time.zero step_ data_ = start_ + n * step_).
  { unfold eff_end. rewrite Es. fold n. rewrite mul_exact by exact Hr.
    unfold Time.IsZero, Time.Before, Time.Add, Time.zero. simpl.
    destruct (Z.ltb_spec 0 (start_ + n * step_)); [reflexivity|nia]. }
  assert (En : new_size now start_ Time.zero step_ data_ = n).
  { unfold new_size. rewrite Es, Ee. unfold Time.Sub.
    replace (start_ + n * step_ - start_) with (n * step_) by lia.
    rewrite sat_id by exact Hr. rewrite Z.quot_mul by lia.
    apply wrap_id. unfold Int64.InRange, Int64.min, Int64.max in *. nia. }
  destruct (NewTimeSeries_run now h key_ start_ Time.zero step_ data_)
    as (p & a & h' & Hrun & _ & _ & Ho & Ha & _).
  { lia. } { rewrite Es, Ee. nia. } { rewrite En. exact Hn. }
  rewrite Es in Ho. rewrite En in Ha. unfold n in Ha. rewrite Nat2Z.id in Ha.
  assert (Hl : fill_pure (length data_ =? 1)%nat
                 match data_ with [v] => v | _ => nan end data_ 0
                 (length data_) (replicate (length data_) 0%float) = data_).
  { destruct data_ as [|x [|y t]]; [reflexivity|reflexivity|].
    apply fill_pure_copy. }
  rewrite Hl in Ha.
  set (s := mkTimeSeries key_ start_ step_ (Some a)
              match data_ with [v] => v | _ => nan end) in *.
  assert (Hat : series_at h' p s data_).
  { split; [rewrite Ho; apply lookup_insert_eq|]. simpl. rewrite Ha. apply lookup_insert_eq. }
  exists p, h', s. split; [exact Hrun|]. split; [exact Hat|].
  repeat (split; [reflexivity|]).
  apply (End_exact h' p s data_ Hat). exact Hr.
Qed.

Lemma NewTimeSeriesOfData_holds_data_witness :
  exists p h' s,
    NewTimeSeriesOfData 2000 "x" 1000 10 [5%float] empty_heap = Ok (inl p) h' /\
    series_at h' p s [5%float] /\
    key s = "x" /\ start s = 1000 /\ step s = 10 /\
    filler s = 5%float /\
    End p h' = Ok 1010 h'.
Proof.
  apply (NewTimeSeriesOfData_holds_data 2000 empty_heap "x" 1000 10 [5%float]);
    vm_compute; congruence.
Defined.

(** X4.  [NewTimeSeriesOfLength], with a start after the zero time, a
    positive step and [length*step] within a [Duration]: a non-negative
    [length] gives exactly that many samples, all the filler; a negative one
    puts the end before the start and is refused with the start-after-end
    error (unless that end is the zero time). *)
Theorem NewTimeSeriesOfLength_count now h key_ start_ step_ length_ fill :
  0 < start_ -> 0 < step_ -> Int64.InRange (length_ * step_) ->
  (0 <= length_ ->
   exists p h' s,
     NewTimeSeriesOfLength now key_ start_ step_ length_ fill h = Ok (inl p) h' /\
     series_at h' p s (replicate (Z.to_nat length_) fill) /\
     key s = key_ /\ start s = start_ /\ step s = step_ /\ filler s = fill) /\
  (length_ < 0 -> start_ + length_ * step_ <> Time.zero ->
   exists h',
     NewTimeSeriesOfLength now key_ start_ step_ length_ fill h =
       Ok (inr (ErrStartAfterEnd start_ (start_ + length_ * step_))) h').
Proof.
  intros Hstart Hstep Hr. unfold NewTimeSeriesOfLength, Time.Add.
  rewrite mul_exact by exact Hr.
  assert (Hs0 : start_ <> Time.zero) by (unfold Time.zero; lia).
  split.
  - intros Hlen.
    assert (He0 : start_ + length_ * step_ <> Time.zero) by (unfold Time.zero; nia).
    destruct (new_size_nonzero_bounds now start_ (start_ + length_ * step_) step_ [fill] Hs0 He0)
      as (Es & Ee & En).
    assert (Hn : new_size now start_ (start_ + length_ * step_) step_ [fill] = length_).
    { rewrite En by nia. unfold Time.Sub.
      replace (start_ + length_ * step_ - start_) with (length_ * step_) by lia.
      rewrite sat_id by exact Hr. apply Z.quot_mul. lia. }
    destruct (NewTimeSeries_single_value now h key_ start_ (start_ + length_ * step_) step_ fill)
      as (p & a & h' & Hrun & Hat).
    { lia. } { rewrite Es, Ee. nia. } { rewrite Hn. exact Hlen. }
    rewrite Es, Hn in Hat.
    eexists p, h', _. split; [exact Hrun|]. split; [exact Hat|].
    repeat split.
  - intros Hneg He0.
    destruct (new_size_nonzero_bounds now start_ (start_ + length_ * step_) step_ [fill] Hs0 He0)
      as (Es & Ee & _).
    destruct (NewTimeSeries_start_after_end now h key_ start_ (start_ + length_ * step_)
                step_ [fill]) as (h' & Hrun).
    { lia. } { rewrite Es, Ee. nia. }
    rewrite Es, Ee in Hrun. exists h'. exact Hrun.
Qed.

Lemma NewTimeSeriesOfLength_count_witness :
  (exists p h' s,
     NewTimeSeriesOfLength 2000 "x" 1000 10 3 7%float empty_heap = Ok (inl p) h' /\
     series_at h' p s [7%float; 7%float; 7%float] /\
     key s = "x" /\ start s = 1000 /\ step s = 10 /\ filler s = 7%float) /\
  exists h',
    NewTimeSeriesOfLength 2000 "x" 1000 10 (-2) 7%float empty_heap =
      Ok (inr (ErrStartAfterEnd 1000 980)) h'.
Proof.
  split.
  - apply (NewTimeSeriesOfLength_count 2000 empty_heap "x" 1000 10 3 7%float);
      vm_compute; try split; congruence.
  - apply (NewTimeSeriesOfLength_count 2000 empty_heap "x" 1000 10 (-2) 7%float);
      vm_compute; try split; congruence.
Defined.

Lemma lookup_replicate_fill {A} (n : nat) (x : A) (i : nat) :
  (i < n)%nat -> replicate n x !! i = Some x.
Proof. intros Hi. apply lookup_replicate_2, Hi. Qed.

(** X5.  [NewTimeSeriesOfTimeRange], with [0 < start <= end], a positive step
    and [end + step - start] within a [Duration]: the series has
    [trunc((end - start) / step) + 1] samples, all the filler; its last
    sample is at or before [end] and its [End()] after [end].  The sample at
    [end] itself can be read only when [end] is a whole number of steps from
    the start; otherwise [GetAt(end)] finds nothing. *)
Theorem NewTimeSeriesOfTimeRange_covers_end now h key_ start_ end_ step_ fill :
  0 < start_ <= end_ -> 0 < step_ -> end_ + step_ - start_ <= Int64.max ->
  let n := Z.quot (end_ - start_) step_ + 1 in
  exists p h' s,
    NewTimeSeriesOfTimeRange now key_ start_ end_ step_ fill h = Ok (inl p) h' /\
    series_at h' p s (replicate (Z.to_nat n) fill) /\
    start s = start_ /\ step s = step_ /\ filler s = fill /\
    start_ + (n - 1) * step_ <= end_ < start_ + n * step_ /\
    End p h' = Ok (start_ + n * step_) h' /\
    ((end_ - start_) mod step_ = 0 -> GetAt p end_ h' = Ok (fill, true) h') /\
    ((end_ - start_) mod step_ <> 0 -> GetAt p end_ h' = Ok (nan, false) h').
Proof.
  intros Hstart Hstep Hfit n.
  pose proof (quot_pos_bounds (end_ - start_) step_ ltac:(lia) Hstep) as Hq.
  assert (Hn1 : 1 <= n) by (unfold n; lia).
  assert (Hs0 : start_ <> Time.zero) by (unfold Time.zero; lia).
  assert (He0 : end_ + step_ <> Time.zero) by (unfold Time.zero; lia).
  destruct (new_size_nonzero_bounds now start_ (end_ + step_) step_ [fill] Hs0 He0)
    as (Es & Ee & En).
  assert (Hn : new_size now start_ (end_ + step_) step_ [fill] = n).
  { rewrite En by lia. unfold Time.Sub.
    rewrite sat_id by (unfold Int64.InRange, Int64.min, Int64.max in *; lia).
    replace (end_ + step_ - start_) with (end_ - start_ + step_) by lia.
    apply quot_add_step; lia. }
  destruct (NewTimeSeries_single_value now h key_ start_ (end_ + step_) step_ fill)
    as (p & a & h' & Hrun & Hat).
  { lia. } { rewrite Es, Ee. lia. } { rewrite Hn. lia. }
  rewrite Es, Hn in Hat.
  set (s := mkTimeSeries key_ start_ step_ (Some a) fill) in *.
  assert (Hlen : Z.of_nat (length (replicate (Z.to_nat n) fill)) = n)
    by (rewrite length_replicate; lia).
  assert (Hbr : start_ + (n - 1) * step_ <= end_ < start_ + n * step_)
    by (unfold n; nia).
  assert (Hlast : last_sample s n = start_ + (n - 1) * step_).
  { apply (last_sample_exact s). simpl.
    unfold Int64.InRange, Int64.min, Int64.max in *. nia. }
  exists p, h', s. split; [exact Hrun|]. split; [exact Hat|].
  repeat (split; [reflexivity|]). split; [exact Hbr|]. split; [|split].
  - rewrite (End_exact h' p s _ Hat); rewrite Hlen; [reflexivity|].
    simpl. unfold Int64.InRange, Int64.min, Int64.max in *. nia.
  - intros Hgrid.
    assert (Heq : end_ - start_ = step_ * Z.quot (end_ - start_) step_).
    { rewrite Z.quot_div_nonneg by lia.
      pose proof (Z.div_mod (end_ - start_) step_ ltac:(lia)). lia. }
    apply (GetAt_run_in h' p s _ end_ fill Hat).
    + simpl. unfold Int64.max in *. lia.
    + rewrite Hlen, Hlast. simpl. unfold n. lia.
    + simpl. apply lookup_replicate_fill. lia.
  - intros Hoff.
    assert (Hlt : step_ * Z.quot (end_ - start_) step_ < end_ - start_).
    { rewrite Z.quot_div_nonneg by lia.
      pose proof (Z.div_mod (end_ - start_) step_ ltac:(lia)).
      pose proof (Z.mod_pos_bound (end_ - start_) step_ Hstep). lia. }
    apply (GetAt_run_out h' p s _ end_ Hat); [simpl; lia|].
    rewrite Hlen, Hlast. simpl. unfold n. lia.
Qed.

Lemma NewTimeSeriesOfTimeRange_covers_end_witness :
  exists p h' s,
    NewTimeSeriesOfTimeRange 2000 "x" 1000 1025 10 7%float empty_heap = Ok (inl p) h' /\
    series_at h' p s [7%float; 7%float; 7%float] /\
    start s = 1000 /\ step s = 10 /\ filler s = 7%float /\
    1000 + (3 - 1) * 10 <= 1025 < 1000 + 3 * 10 /\
    End p h' = Ok 1030 h' /\
    ((1025 - 1000) mod 10 = 0 -> GetAt p 1025 h' = Ok (7%float, true) h') /\
    ((1025 - 1000) mod 10 <> 0 -> GetAt p 1025 h' = Ok (nan, false) h').
Proof.
  apply (NewTimeSeriesOfTimeRange_covers_end 2000 empty_heap "x" 1000 1025 10 7%float);
    vm_compute; try split; congruence.
Defined.

(** ** Appending values, renaming *)

Lemma set_data_same s : set_data (data s) s = s.
Proof. destruct s. reflexivity. Qed.

Lemma ExtendWith_run h p s l vs :
  series_at h p s l ->
  exists h', ExtendWith p vs h = Ok tt h' /\ extended h h' p s l vs.
Proof.
  intros [Hp Hl]. unfold ExtendWith.
  rewrite (bind_ok _ _ _ _ _ (getTS_run _ _ _ Hp)).
  destruct vs as [|v vs].
  - unfold append. rewrite (bind_ok _ _ _ _ _ (eq_refl : ret (data s) h = Ok (data s) h)).
    rewrite (modTS_run p _ h s Hp). eexists. split; [reflexivity|].
    exists s. rewrite set_data_same, app_nil_r.
    repeat split; simpl; try assumption.
    + apply lookup_insert_eq.
    + intros q Hq. apply lookup_insert_ne. congruence.
    + auto.
  - set (a := fresh (dom (arrs h))).
    set (h1 := with_arrs (<[a := l ++ v :: vs]> (arrs h)) h).
    rewrite (bind_ok _ _ _ _ _ (append_run h _ _ (v :: vs) Hl ltac:(discriminate))).
    fold a. fold h1. rewrite (modTS_run p _ h1 s Hp). eexists. split; [reflexivity|].
    exists (set_data (Some a) s). repeat split; simpl.
    + apply lookup_insert_eq.
    + apply lookup_insert_eq.
    + intros q Hq. apply lookup_insert_ne. congruence.
    + intros b x Hb. rewrite lookup_insert_ne; [exact Hb|].
      intros <-. unfold a in Hb. rewrite fresh_arrs in Hb. discriminate.
Qed.

(** X6.  [ExtendWith] appends the given values, in order, after the samples
    of the series, whatever its step; key, start, step and filler, every
    other object and every other array stay as they were. *)
Theorem ExtendWith_appends h p s l vs :
  series_at h p s l ->
  exists h', ExtendWith p vs h = Ok tt h' /\ extended h h' p s l vs.
Proof. apply ExtendWith_run. Qed.

Lemma ExtendWith_appends_witness :
  exists h', ExtendWith 0%nat [4%float; 5%float] sample_heap = Ok tt h' /\
             extended sample_heap h' 0%nat sample_series
               [1%float; 2%float; 3%float] [4%float; 5%float].
Proof.
  apply (ExtendWith_appends sample_heap 0%nat sample_series).
  vm_compute. split; reflexivity.
Defined.

(** [GetAt] depends on the start, the step and the samples only. *)
Lemma GetAt_fields h h' p s s' l t :
  series_at h p s l -> series_at h' p s' l ->
  start s' = start s -> step s' = step s ->
  outcome (GetAt p t h) = outcome (GetAt p t h').
Proof.
  intros [Hp Hl] [Hp' Hl'] Hst Hsp.
  unfold GetAt, index, bind, getTS, len, load, quot64, ret, panic.
  rewrite Hp, Hp', Hst. destruct (Time.Before t (start s)); [reflexivity|].
  rewrite Hl, Hl', Hsp. destruct (Time.After t _); [reflexivity|].
  destruct (step s =? 0); [reflexivity|].
  destruct (_ =? -1); [reflexivity|].
  rewrite Hp, Hp', Hl, Hl'.
  destruct (l !! _); [|reflexivity]. destruct (in_bounds _ _); reflexivity.
Qed.

(** X7.  After [SetKey k], [Key] returns [k]; the start, the step, the end,
    the samples and so every [GetAt] are what they were, and no other
    object changed. *)
Theorem SetKey_then_Key h p s l k :
  series_at h p s l ->
  exists h',
    SetKey p k h = Ok tt h' /\
    Key p h' = Ok k h' /\
    series_at h' p (set_key k s) l /\
    outcome (Start p h') = outcome (Start p h) /\
    outcome (Step p h') = outcome (Step p h) /\
    outcome (End p h') = outcome (End p h) /\
    (forall t, outcome (GetAt p t h') = outcome (GetAt p t h)) /\
    (forall q, q <> p -> objs h' !! q = objs h !! q).
Proof.
  intros Hat. pose proof Hat as [Hp Hl].
  set (h' := with_objs (<[p := set_key k s]> (objs h)) h).
  assert (Hp' : objs h' !! p = Some (set_key k s)) by apply lookup_insert_eq.
  assert (Hat' : series_at h' p (set_key k s) l) by (split; [exact Hp'|exact Hl]).
  exists h'. split; [apply modTS_run, Hp|]. split; [|split; [exact Hat'|]].
  { unfold Key. rewrite (bind_ok _ _ _ _ _ (getTS_run _ _ _ Hp')). reflexivity. }
  split; [|split; [|split; [|split]]].
  - unfold Start. rewrite (bind_ok _ _ _ _ _ (getTS_run _ _ _ Hp')).
    rewrite (bind_ok _ _ _ _ _ (getTS_run _ _ _ Hp)). reflexivity.
  - unfold Step. rewrite (bind_ok _ _ _ _ _ (getTS_run _ _ _ Hp')).
    rewrite (bind_ok _ _ _ _ _ (getTS_run _ _ _ Hp)). reflexivity.
  - rewrite (End_run _ _ _ _ Hat'), (End_run _ _ _ _ Hat). reflexivity.
  - intros t. apply (GetAt_fields h' h p (set_key k s) s l); auto.
  - intros q Hq. simpl. apply lookup_insert_ne. congruence.
Qed.

Lemma SetKey_then_Key_witness :
  exists h',
    SetKey 0%nat "y" sample_heap = Ok tt h' /\
    Key 0%nat h' = Ok "y" h' /\
    forall t, outcome (GetAt 0%nat t h') = outcome (GetAt 0%nat t sample_heap).
Proof.
  destruct (SetKey_then_Key sample_heap 0%nat sample_series
              [1%float; 2%float; 3%float] "y")
    as (h' & Hset & Hkey & _ & _ & _ & _ & Hget & _).
  - vm_compute. split; reflexivity.
  - exists h'. split; [exact Hset|]. split; [exact Hkey|exact Hget].
Defined.

(** ** Reading what an extension added *)

Lemma GetAt_at_step_fields h p s s' l j :
  series_at h p s' l -> start s' = start s -> step s' = step s ->
  0 < step s <= Int64.max ->
  Int64.InRange ((Z.of_nat (length l) - 1) * step s) ->
  GetAt p (start s + Z.of_nat j * step s) h = Ok (read_at l j) h.
Proof.
  intros Hat Hst Hsp Hs Hfit. rewrite <- Hst, <- Hsp.
  apply GetAt_at_step; [exact Hat|rewrite Hsp; exact Hs|rewrite Hsp; exact Hfit].
Qed.

(** X8.  [ExtendTo t] with [t] at or after the end (positive step, spans
    within a [Duration]) appends [trunc((t - End()) / step) + 1] fillers:
    afterwards [End() - step <= t < End()].  The new sample at [t] itself
    can be read only when [t] is a whole number of steps from the start;
    otherwise [GetAt(t)] still finds nothing. *)
Theorem ExtendTo_covers h p s l t :
  series_at h p s l -> 0 < step s ->
  let e := start s + Z.of_nat (length l) * step s in
  let k := Z.quot (t - e) (step s) + 1 in
  e <= t -> t + step s - start s <= Int64.max ->
  exists h',
    ExtendTo p t h = Ok tt h' /\
    extended h h' p s l (replicate (Z.to_nat k) (filler s)) /\
    End p h' = Ok (e + k * step s) h' /\
    e + k * step s - step s <= t < e + k * step s /\
    ((t - start s) mod step s = 0 -> GetAt p t h' = Ok (filler s, true) h') /\
    ((t - start s) mod step s <> 0 -> GetAt p t h' = Ok (nan, false) h').
Proof.
  intros Hat Hs e k Hge Hfit.
  set (n := Z.of_nat (length l)) in *.
  assert (Hn : 0 <= n) by (unfold n; lia).
  pose proof (quot_pos_bounds (t - e) (step s) ltac:(lia) Hs) as Hq.
  assert (Hk : 1 <= k) by (unfold k; lia).
  assert (Hne : Int64.InRange (n * step s))
    by (unfold Int64.InRange, Int64.min, Int64.max in *; nia).
  assert (HEnd : End p h = Ok e h) by (apply End_exact; assumption).
  assert (Hsub : Time.Sub (Time.Add t (step s)) e = t - e + step s).
  { unfold Time.Sub, Time.Add. rewrite sat_id; [lia|].
    unfold Int64.InRange, Int64.min, Int64.max in *. nia. }
  destruct (extend_loop_run p (Z.to_nat k) h s l Hat)
    as (h' & Hrun & _ & Hext).
  pose proof Hext as (s' & Hat' & _ & Hst & Hsp & Hf & _).
  assert (Hlen : Z.of_nat (length (l ++ replicate (Z.to_nat k) (filler s))) = n + k)
    by (rewrite length_app, length_replicate; unfold n; lia).
  assert (Hbr : e + k * step s - step s <= t < e + k * step s) by (unfold k; nia).
  assert (Hlast : last_sample s' (n + k) = e + k * step s - step s).
  { rewrite last_sample_exact.
    - rewrite Hst, Hsp. unfold e. lia.
    - rewrite Hsp. unfold Int64.InRange, Int64.min, Int64.max in *. nia. }
  assert (Hmod : (t - start s) mod step s = (t - e) mod step s).
  { replace (t - start s) with (t - e + n * step s) by (unfold e; lia).
    apply Z.mod_add. lia. }
  pose proof (Z.div_mod (t - e) (step s) ltac:(lia)) as Hdm.
  pose proof (Z.mod_pos_bound (t - e) (step s) Hs) as Hmb.
  rewrite <- Z.quot_div_nonneg in Hdm by lia.
  exists h'. split; [|split; [exact Hext|split; [|split; [exact Hbr|split]]]].
  - unfold ExtendTo. rewrite (bind_ok _ _ _ _ _ HEnd).
    unfold Time.Before. destruct (Z.ltb_spec t e); [lia|].
    rewrite (bind_ok _ _ _ _ _ (getTS_run _ _ _ (proj1 Hat))).
    rewrite Hsub.
    assert (Hd : 0 <= t - e + step s <= Int64.max)
      by (unfold Int64.max in *; nia).
    rewrite (bind_ok _ _ _ _ _ (quot64_pos _ (step s) h Hd Hs)).
    rewrite quot_add_step by lia. exact Hrun.
  - rewrite (End_exact h' p s' _ Hat').
    + rewrite Hlen, Hst, Hsp. f_equal. unfold e. lia.
    + rewrite Hlen, Hsp. unfold Int64.InRange, Int64.min, Int64.max in *. nia.
  - intros Hgrid. rewrite Hmod in Hgrid. rewrite Hgrid in Hdm.
    assert (Hpos : 0 <= n * step s) by nia.
    apply (GetAt_run_in h' p s' _ t (filler s) Hat').
    + rewrite Hsp. unfold Int64.max in *. nia.
    + rewrite Hlen, Hlast, Hst. unfold k, e in *. lia.
    + rewrite Hst, Hsp.
      replace (t - start s) with ((n + Z.quot (t - e) (step s)) * step s)
        by (unfold e in *; lia).
      rewrite Z.quot_mul by lia.
      rewrite lookup_app_r by (unfold n; lia).
      apply lookup_replicate_fill. unfold n, k. lia.
  - intros Hoff. rewrite Hmod in Hoff.
    apply (GetAt_run_out h' p s' _ t Hat'); [rewrite Hsp; lia|].
    rewrite Hlen, Hlast, Hst. unfold k, e in *. lia.
Qed.

Lemma ExtendTo_covers_witness :
  exists h',
    ExtendTo 0%nat 1045 sample_heap = Ok tt h' /\
    extended sample_heap h' 0%nat sample_series
      [1%float; 2%float; 3%float] [nan; nan] /\
    End 0%nat h' = Ok 1050 h' /\
    GetAt 0%nat 1045 h' = Ok (nan, false) h'.
Proof.
  destruct (ExtendTo_covers sample_heap 0%nat sample_series
              [1%float; 2%float; 3%float] 1045)
    as (h' & Hrun & Hext & HEnd & _ & _ & Hoff).
  - vm_compute. split; reflexivity.
  - simpl. lia.
  - vm_compute. congruence.
  - vm_compute. congruence.
  - exists h'. split; [exact Hrun|]. split; [exact Hext|]. split; [exact HEnd|].
    apply Hoff. vm_compute. congruence.
Defined.

(** X9.  After [ExtendBy d] with [d >= 0] (positive step, last timestamp
    within a [Duration]) a read at the [j]-th step from the start finds the
    old sample for [j] below the old length, the filler for the
    [floor(d / step)] new indices, and nothing beyond. *)
Theorem ExtendBy_then_GetAt h p s l d :
  series_at h p s l -> 0 < step s <= Int64.max ->
  0 <= d <= Int64.max ->
  let added := replicate (Z.to_nat (d / step s)) (filler s) in
  Int64.InRange ((Z.of_nat (length (l ++ added)) - 1) * step s) ->
  exists h',
    ExtendBy p d h = Ok tt h' /\
    forall j, GetAt p (start s + Z.of_nat j * step s) h' = Ok (read_at (l ++ added) j) h'.
Proof.
  intros Hat Hs Hd added Hfit.
  pose proof (quot_pos_bounds d (step s) (proj1 Hd) (proj1 Hs)) as Hq.
  destruct (extend_loop_run p (Z.to_nat (d / step s)) h s l Hat)
    as (h' & Hrun & _ & s' & Hat' & _ & Hst & Hsp & _).
  exists h'. split.
  - unfold ExtendBy. rewrite (bind_ok _ _ _ _ _ (getTS_run _ _ _ (proj1 Hat))).
    assert (Hnz : step s <> 0) by lia.
    rewrite (bind_ok _ _ _ _ _ (quot64_run d (step s) h Hnz)).
    rewrite wrap_id by (unfold Int64.InRange, Int64.min, Int64.max in *; lia).
    rewrite Z.quot_div_nonneg by lia. exact Hrun.
  - intros j. apply (GetAt_at_step_fields h' p s s'); assumption.
Qed.

Lemma ExtendBy_then_GetAt_witness :
  exists h',
    ExtendBy 0%nat 25 sample_heap = Ok tt h' /\
    GetAt 0%nat (1000 + 1 * 10) h' = Ok (2%float, true) h' /\
    GetAt 0%nat (1000 + 4 * 10) h' = Ok (nan, true) h' /\
    GetAt 0%nat (1000 + 5 * 10) h' = Ok (nan, false) h'.
Proof.
  destruct (ExtendBy_then_GetAt sample_heap 0%nat sample_series
              [1%float; 2%float; 3%float] 25) as (h' & Hrun & Hget).
  - vm_compute. split; reflexivity.
  - unfold Int64.max. simpl. lia.
  - unfold Int64.max. lia.
  - vm_compute. split; congruence.
  - exists h'. split; [exact Hrun|].
    split; [exact (Hget 1%nat)|]. split; [exact (Hget 4%nat)|exact (Hget 5%nat)].
Defined.

(** ** The other iterator operations *)

Lemma neg_exact d : 0 < d <= Int64.max -> Int64.neg d = - d.
Proof.
  intros Hd. unfold Int64.neg. apply wrap_id.
  unfold Int64.InRange, Int64.min, Int64.max in *. lia.
Qed.

Lemma final_read_lookup (l : list float) : final_read l = read_at l (pred (length l)).
Proof. unfold final_read, read_at. rewrite last_lookup. reflexivity. Qed.

(** A read one step before the end. *)
Lemma GetAt_before_end h p s l :
  series_at h p s l -> 0 < step s <= Int64.max ->
  Int64.InRange (Z.of_nat (length l) * step s) ->
  GetAt p (start s + (Z.of_nat (length l) - 1) * step s) h = Ok (final_read l) h.
Proof.
  intros Hat Hs Hfit. rewrite final_read_lookup.
  destruct l as [|v l'] eqn:El.
  - apply (GetAt_run_out h p s [] _ Hat); [lia|]. simpl. lia.
  - rewrite <- El in *.
    assert (Hn : (1 <= length l)%nat) by (rewrite El; simpl; lia).
    replace (Z.of_nat (length l) - 1) with (Z.of_nat (pred (length l))) by lia.
    apply GetAt_at_step; [exact Hat|exact Hs|].
    unfold Int64.InRange, Int64.min, Int64.max in *. nia.
Qed.

Lemma Last_run h p s l it c :
  series_at h p s l -> 0 < step s <= Int64.max ->
  Int64.InRange (Z.of_nat (length l) * step s) ->
  iters h !! it = Some (mkIterator c p) ->
  Last it h =
    Ok (final_read l)
       (with_iters (<[it := mkIterator (start s + (Z.of_nat (length l) - 1) * step s) p]>
                      (iters h)) h).
Proof.
  intros Hat Hs Hfit Hit.
  set (c' := start s + (Z.of_nat (length l) - 1) * step s).
  set (h1 := with_iters (<[it := mkIterator c' p]> (iters h)) h).
  assert (Hat1 : series_at h1 p s l) by exact Hat.
  unfold Last. rewrite (bind_ok _ _ _ _ _ (getIt_run _ _ _ Hit)). cbn [series cursor].
  rewrite (bind_ok _ _ _ _ _ (End_exact h p s l Hat Hfit)).
  rewrite (bind_ok _ _ _ _ _ (getTS_run _ _ _ (proj1 Hat))).
  rewrite (bind_ok _ _ _ _ _ (modIt_run _ _ _ _ Hit)).
  unfold set_cursor, Time.Add. cbn [series cursor]. rewrite neg_exact by exact Hs.
  replace (start s + Z.of_nat (length l) * step s + - step s) with c' by (unfold c'; lia).
  fold h1.
  rewrite (bind_ok _ _ _ _ _ (getIt_run h1 it _ (lookup_insert_eq _ _ _))).
  cbn [series cursor]. apply (GetAt_before_end h1 p s l Hat1 Hs Hfit).
Qed.

(** X10.  [Last] (positive step, end within a [Duration]) puts the cursor on
    the last sample, [End() - step], wherever it was, and returns that
    sample; without samples it returns not-found.  It leaves the cursor
    there, so a second [Last] returns the same and changes nothing. *)
Theorem Last_returns_final_sample h p s l it c :
  series_at h p s l -> 0 < step s <= Int64.max ->
  Int64.InRange (Z.of_nat (length l) * step s) ->
  iters h !! it = Some (mkIterator c p) ->
  exists h',
    Last it h = Ok (final_read l) h' /\
    iters h' !! it =
      Some (mkIterator (start s + Z.of_nat (length l) * step s - step s) p) /\
    series_at h' p s l /\
    Last it h' = Ok (final_read l) h'.
Proof.
  intros Hat Hs Hfit Hit.
  set (c' := start s + (Z.of_nat (length l) - 1) * step s).
  set (h' := with_iters (<[it := mkIterator c' p]> (iters h)) h).
  assert (Hit' : iters h' !! it = Some (mkIterator c' p)) by apply lookup_insert_eq.
  exists h'. split; [apply (Last_run h p s l it c); assumption|].
  split; [|split; [exact Hat|]].
  - rewrite Hit'. do 2 f_equal. unfold c'. lia.
  - rewrite (Last_run h' p s l it c' Hat Hs Hfit Hit'). fold c'. f_equal.
    unfold h', with_iters. simpl. f_equal. apply insert_insert_eq.
Qed.

Lemma Last_returns_final_sample_witness :
  exists it h0 h',
    TimeSeries_Iterator 0%nat sample_heap = Ok it h0 /\
    Last it h0 = Ok (3%float, true) h' /\
    iters h' !! it = Some (mkIterator 1020 0%nat) /\
    Last it h' = Ok (3%float, true) h'.
Proof.
  exists 0%nat. eexists.
  destruct (Last_returns_final_sample
              (with_iters (<[0%nat := mkIterator 1000 0%nat]> ∅) sample_heap)
              0%nat sample_series [1%float; 2%float; 3%float] 0%nat 1000)
    as (h' & Hrun & Hit & _ & Hagain).
  - vm_compute. split; reflexivity.
  - unfold Int64.max. simpl. lia.
  - unfold Int64.InRange, Int64.min, Int64.max. simpl. lia.
  - vm_compute. reflexivity.
  - exists h'. split; [vm_compute; reflexivity|].
    split; [exact Hrun|]. split; [exact Hit|exact Hagain].
Defined.

(** X11.  [Last] reads without advancing: on a series with positive step,
    at least one sample and its end within a [Duration], the [Next] after a
    [Last] returns the last sample once more, and only the [Next] after that
    returns not-found. *)
Theorem Last_then_Next h p s l it c :
  series_at h p s l -> 0 < step s <= Int64.max ->
  Int64.InRange (Z.of_nat (length l) * step s) ->
  iters h !! it = Some (mkIterator c p) ->
  l <> [] ->
  exists h1 h2 h3,
    Last it h = Ok (final_read l) h1 /\
    Next it h1 = Ok (final_read l) h2 /\
    Next it h2 = Ok (nan, false) h3.
Proof.
  intros Hat Hs Hfit Hit Hne.
  assert (Hn : (1 <= length l)%nat) by (destruct l; [contradiction|simpl; lia]).
  assert (Hfit' : Int64.InRange ((Z.of_nat (length l) - 1) * step s))
    by (unfold Int64.InRange, Int64.min, Int64.max in *; nia).
  set (c1 := start s + (Z.of_nat (length l) - 1) * step s).
  set (h1 := with_iters (<[it := mkIterator c1 p]> (iters h)) h).
  assert (Hit1 : iters h1 !! it =
                 Some (mkIterator (start s + Z.of_nat (pred (length l)) * step s) p)).
  { replace (Z.of_nat (pred (length l))) with (Z.of_nat (length l) - 1) by lia.
    apply lookup_insert_eq. }
  pose proof (Next_run h1 p s l it (pred (length l)) Hat Hs Hfit' Hit1) as HN1.
  set (h2 := with_iters
               (<[it := mkIterator (start s + Z.of_nat (S (pred (length l))) * step s) p]>
                  (iters h1)) h1) in *.
  assert (Hit2 : iters h2 !! it =
                 Some (mkIterator (start s + Z.of_nat (S (pred (length l))) * step s) p))
    by apply lookup_insert_eq.
  pose proof (Next_run h2 p s l it (S (pred (length l))) Hat Hs Hfit' Hit2) as HN2.
  exists h1, h2. eexists. split; [apply (Last_run h p s l it c); assumption|]. split.
  - rewrite HN1. rewrite final_read_lookup. reflexivity.
  - rewrite HN2. unfold read_at. rewrite lookup_ge_None_2 by lia. reflexivity.
Qed.

Lemma Last_then_Next_witness :
  exists h1 h2 h3,
    Last 0%nat (with_iters (<[0%nat := mkIterator 1000 0%nat]> ∅) sample_heap)
      = Ok (3%float, true) h1 /\
    Next 0%nat h1 = Ok (3%float, true) h2 /\
    Next 0%nat h2 = Ok (nan, false) h3.
Proof.
  apply (Last_then_Next (with_iters (<[0%nat := mkIterator 1000 0%nat]> ∅) sample_heap)
           0%nat sample_series [1%float; 2%float; 3%float] 0%nat 1000).
  - vm_compute. split; reflexivity.
  - unfold Int64.max. simpl. lia.
  - unfold Int64.InRange, Int64.min, Int64.max. simpl. lia.
  - vm_compute. reflexivity.
  - discriminate.
Defined.

Lemma IteratorTimeValue_Next_run h p s l it j :
  series_at h p s l -> 0 < step s <= Int64.max ->
  Int64.InRange ((Z.of_nat (length l) - 1) * step s) ->
  iters h !! it = Some (mkIterator (start s + Z.of_nat j * step s) p) ->
  IteratorTimeValue_Next it h =
    Ok (timed_read s l j)
       (with_iters (<[it := mkIterator (start s + Z.of_nat (S j) * step s) p]> (iters h)) h).
Proof.
  intros Hat Hs Hfit Hit. unfold IteratorTimeValue_Next.
  rewrite (bind_ok _ _ _ _ _ (getIt_run _ _ _ Hit)). cbn [series cursor].
  rewrite (bind_ok _ _ _ _ _ (GetAt_at_step h p s l j Hat Hs Hfit)).
  rewrite (bind_ok _ _ _ _ _ (getIt_run _ _ _ Hit)). cbn [series cursor].
  rewrite (bind_ok _ _ _ _ _ (getTS_run _ _ _ (proj1 Hat))).
  rewrite (bind_ok _ _ _ _ _ (modIt_run _ _ _ _ Hit)).
  unfold ret, set_cursor, Time.Add, timed_read. cbn [series cursor].
  replace (start s + Z.of_nat j * step s + step s)
    with (start s + Z.of_nat (S j) * step s) by lia.
  reflexivity.
Qed.

Lemma IteratorTimeValue_Next_times_run p s l it k : forall j h,
  series_at h p s l -> 0 < step s <= Int64.max ->
  Int64.InRange ((Z.of_nat (length l) - 1) * step s) ->
  iters h !! it = Some (mkIterator (start s + Z.of_nat j * step s) p) ->
  exists h',
    IteratorTimeValue_Next_times it k h = Ok (timed_read s l <$> seq j k) h' /\
    series_at h' p s l /\
    iters h' !! it = Some (mkIterator (start s + Z.of_nat (j + k) * step s) p).
Proof.
  induction k as [|k IH]; intros j h Hat Hs Hfit Hit.
  - exists h. split; [reflexivity|]. split; [exact Hat|].
    rewrite Nat.add_0_r. exact Hit.
  - set (h1 := with_iters (<[it := mkIterator (start s + Z.of_nat (S j) * step s) p]> (iters h)) h).
    destruct (IH (S j) h1) as (h' & Hrun & Hat' & Hit');
      [exact Hat|exact Hs|exact Hfit|apply lookup_insert_eq|].
    exists h'. split; [|split; [exact Hat'|]].
    + simpl.
      rewrite (bind_ok _ _ _ _ _ (IteratorTimeValue_Next_run h p s l it j Hat Hs Hfit Hit)).
      fold h1. rewrite (bind_ok _ _ _ _ _ Hrun). reflexivity.
    + replace (j + S k)%nat with (S j + k)%nat by lia. exact Hit'.
Qed.

(** X12.  On a series with positive step whose last timestamp fits a
    [Duration], the [j]-th [Next] of a fresh [IteratorTimeValue] (counting
    from 0) returns the timestamp [start + j*step], the cursor before it
    advances, together with what [GetAt] finds there: the [j]-th sample and
    true, or NaN and false from the length on. *)
Theorem IteratorTimeValue_yields_timestamps h p s l k :
  series_at h p s l -> 0 < step s <= Int64.max ->
  Int64.InRange ((Z.of_nat (length l) - 1) * step s) ->
  exists it h',
    (let* it := TimeSeries_IteratorTimeValue p in
     let* rs := IteratorTimeValue_Next_times it k in
     ret (it, rs)) h = Ok (it, timed_read s l <$> seq 0 k) h' /\
    (forall j v, l !! j = Some v ->
       timed_read s l j = (start s + Z.of_nat j * step s, v, true)) /\
    (forall j, (length l <= j)%nat ->
       timed_read s l j = (start s + Z.of_nat j * step s, nan, false)) /\
    iters h' !! it = Some (mkIterator (start s + Z.of_nat k * step s) p).
Proof.
  intros Hat Hs Hfit.
  set (it := fresh (dom (iters h))).
  set (h0 := with_iters (<[it := mkIterator (start s) p]> (iters h)) h).
  assert (Hat0 : series_at h0 p s l) by exact Hat.
  assert (Hit0 : iters h0 !! it = Some (mkIterator (start s + Z.of_nat 0 * step s) p)).
  { replace (start s + Z.of_nat 0 * step s) with (start s) by lia. apply lookup_insert_eq. }
  destruct (IteratorTimeValue_Next_times_run p s l it k 0%nat h0 Hat0 Hs Hfit Hit0)
    as (h' & Hrun & _ & Hit').
  exists it, h'. split; [|split; [|split]].
  - assert (Hnew : TimeSeries_IteratorTimeValue p h = Ok it h0).
    { unfold TimeSeries_IteratorTimeValue.
      rewrite (bind_ok _ _ _ _ _ (getTS_run _ _ _ (proj1 Hat))). reflexivity. }
    rewrite (bind_ok _ _ _ _ _ Hnew). rewrite (bind_ok _ _ _ _ _ Hrun). reflexivity.
  - intros j v Hv. unfold timed_read, read_at. rewrite Hv. reflexivity.
  - intros j Hj. unfold timed_read, read_at. rewrite lookup_ge_None_2 by lia. reflexivity.
  - exact Hit'.
Qed.

Lemma IteratorTimeValue_yields_timestamps_witness :
  exists it h',
    (let* it := TimeSeries_IteratorTimeValue 0%nat in
     let* rs := IteratorTimeValue_Next_times it 4 in
     ret (it, rs)) sample_heap =
      Ok (it, [(1000, 1%float, true); (1010, 2%float, true);
               (1020, 3%float, true); (1030, nan, false)]) h'.
Proof.
  destruct (IteratorTimeValue_yields_timestamps sample_heap 0%nat sample_series
              [1%float; 2%float; 3%float] 4) as (it & h' & Hrun & _).
  - vm_compute. split; reflexivity.
  - unfold Int64.max. simpl. lia.
  - unfold Int64.InRange, Int64.min, Int64.max. simpl. lia.
  - exists it, h'. exact Hrun.
Defined.

(** X13.  [Last] of an [IteratorTimeValue] (positive step, end within a
    [Duration]) returns the timestamp of the last sample, [End() - step],
    with that sample, and leaves the cursor there; without samples it
    returns the timestamp one step before the start and not-found. *)
Theorem IteratorTimeValue_Last_returns_final h p s l it c :
  series_at h p s l -> 0 < step s <= Int64.max ->
  Int64.InRange (Z.of_nat (length l) * step s) ->
  iters h !! it = Some (mkIterator c p) ->
  let t := start s + Z.of_nat (length l) * step s - step s in
  exists h',
    IteratorTimeValue_Last it h = Ok (t, fst (final_read l), snd (final_read l)) h' /\
    iters h' !! it = Some (mkIterator t p) /\
    series_at h' p s l.
Proof.
  intros Hat Hs Hfit Hit t.
  set (c' := start s + (Z.of_nat (length l) - 1) * step s).
  assert (Ht : t = c') by (unfold t, c'; lia).
  set (h1 := with_iters (<[it := mkIterator c' p]> (iters h)) h).
  assert (Hat1 : series_at h1 p s l) by exact Hat.
  exists h1. rewrite Ht. split; [|split; [apply lookup_insert_eq|exact Hat]].
  unfold IteratorTimeValue_Last.
  rewrite (bind_ok _ _ _ _ _ (getIt_run _ _ _ Hit)). cbn [series cursor].
  rewrite (bind_ok _ _ _ _ _ (End_exact h p s l Hat Hfit)).
  rewrite (bind_ok _ _ _ _ _ (getTS_run _ _ _ (proj1 Hat))).
  rewrite (bind_ok _ _ _ _ _ (modIt_run _ _ _ _ Hit)).
  unfold set_cursor, Time.Add. cbn [series cursor]. rewrite neg_exact by exact Hs.
  replace (start s + Z.of_nat (length l) * step s + - step s) with c' by (unfold c'; lia).
  fold h1.
  rewrite (bind_ok _ _ _ _ _ (getIt_run h1 it _ (lookup_insert_eq _ _ _))).
  cbn [series cursor].
  rewrite (bind_ok _ _ _ _ _ (GetAt_before_end h1 p s l Hat1 Hs Hfit)). reflexivity.
Qed.

Lemma IteratorTimeValue_Last_returns_final_witness :
  exists h',
    IteratorTimeValue_Last 0%nat
      (with_iters (<[0%nat := mkIterator 1000 0%nat]> ∅) sample_heap)
      = Ok (1020, 3%float, true) h'.
Proof.
  destruct (IteratorTimeValue_Last_returns_final
              (with_iters (<[0%nat := mkIterator 1000 0%nat]> ∅) sample_heap)
              0%nat sample_series [1%float; 2%float; 3%float] 0%nat 1000)
    as (h' & Hrun & _).
  - vm_compute. split; reflexivity.
  - unfold Int64.max. simpl. lia.
  - unfold Int64.InRange, Int64.min, Int64.max. simpl. lia.
  - vm_compute. reflexivity.
  - exists h'. exact Hrun.
Defined.

(** X14.  An iterator refers to its series and does not copy it: on a
    series with positive step, samples appended with [ExtendWith] after the
    iterator was made are yielded by its later [Next] calls, after the old
    ones, provided the last timestamp of the extended series fits a
    [Duration]. *)
Theorem Iterator_sees_extension h p s l vs :
  series_at h p s l -> 0 < step s <= Int64.max ->
  Int64.InRange ((Z.of_nat (length (l ++ vs)) - 1) * step s) ->
  exists h',
    (let* it := TimeSeries_Iterator p in
     ExtendWith p vs >>
     Next_times it (length (l ++ vs))) h =
      Ok ((fun v => (v, true)) <$> (l ++ vs)) h'.
Proof.
  intros Hat Hs Hfit.
  set (it := fresh (dom (iters h))).
  set (h0 := with_iters (<[it := mkIterator (start s) p]> (iters h)) h).
  assert (Hat0 : series_at h0 p s l) by exact Hat.
  assert (Hnew : TimeSeries_Iterator p h = Ok it h0).
  { unfold TimeSeries_Iterator.
    rewrite (bind_ok _ _ _ _ _ (getTS_run _ _ _ (proj1 Hat))). reflexivity. }
  destruct (ExtendWith_run h0 p s l vs Hat0)
    as (h1 & Hrun1 & s1 & Hat1 & _ & Hst & Hsp & _ & Hit1 & _).
  assert (Hc : iters h1 !! it = Some (mkIterator (start s1 + Z.of_nat 0 * step s1) p)).
  { rewrite Hit1, Hst. replace (start s + Z.of_nat 0 * step s1) with (start s) by lia.
    apply lookup_insert_eq. }
  destruct (Next_times_run p s1 (l ++ vs) it (length (l ++ vs)) 0%nat h1 Hat1)
    as (h' & Hrun & _); [rewrite Hsp; exact Hs|rewrite Hsp; exact Hfit|exact Hc|].
  exists h'. rewrite (bind_ok _ _ _ _ _ Hnew). rewrite (bind_ok _ _ _ _ _ Hrun1).
  rewrite Hrun. rewrite read_all. reflexivity.
Qed.

Lemma Iterator_sees_extension_witness :
  exists h',
    (let* it := TimeSeries_Iterator 0%nat in
     ExtendWith 0%nat [4%float] >>
     Next_times it 4) sample_heap =
      Ok [(1%float, true); (2%float, true); (3%float, true); (4%float, true)] h'.
Proof.
  apply (Iterator_sees_extension sample_heap 0%nat sample_series
           [1%float; 2%float; 3%float] [4%float]).
  - vm_compute. split; reflexivity.
  - unfold Int64.max. simpl. lia.
  - unfold Int64.InRange, Int64.min, Int64.max. simpl. lia.
Defined.

(** ** Rendering *)

Lemma string_app_assoc (a b c : string) : (a +:+ b) +:+ c = a +:+ (b +:+ c).
Proof.
  induction a as [|x a IH]; [reflexivity|].
  change (String x ((a +:+ b) +:+ c) = String x (a +:+ (b +:+ c))).
  f_equal. exact IH.
Qed.

Lemma string_app_empty_r (b : string) : b +:+ "" = b.
Proof.
  induction b as [|x b IH]; [reflexivity|].
  change (String x (b +:+ "") = String x b). f_equal. exact IH.
Qed.

Lemma string_length_app (a b : string) :
  String.length (a +:+ b) = (String.length a + String.length b)%nat.
Proof.
  induction a as [|x a IH]; [reflexivity|].
  change (S (String.length (a +:+ b)) = S (String.length a + String.length b)).
  f_equal. exact IH.
Qed.

Lemma substring_prefix (a b : string) :
  String.substring 0 (String.length a) (a +:+ b) = a.
Proof.
  induction a as [|x a IH].
  - destruct b; reflexivity.
  - change (String x (String.substring 0 (String.length a) (a +:+ b)) = String x a).
    f_equal. exact IH.
Qed.

(** Dropping the one byte written last. *)
Lemma Truncate_last (a : string) (c : Ascii.ascii) h :
  let buf := a +:+ String c "" in
  (if 0 <? Z.of_nat (String.length buf)
   then Truncate (Z.of_nat (String.length buf) - 1) buf
   else ret buf) h = Ok a h.
Proof.
  intros buf.
  assert (Hlen : String.length buf = S (String.length a)).
  { unfold buf. rewrite string_length_app. simpl. lia. }
  rewrite Hlen. destruct (Z.ltb_spec 0 (Z.of_nat (S (String.length a)))); [|lia].
  unfold Truncate. rewrite Hlen.
  replace (Z.of_nat (S (String.length a)) - 1) with (Z.of_nat (String.length a)) by lia.
  destruct (Z.ltb_spec (Z.of_nat (String.length a)) 0); [lia|].
  destruct (Z.ltb_spec (Z.of_nat (S (String.length a))) (Z.of_nat (String.length a))); [lia|].
  simpl. unfold ret. rewrite Nat2Z.id. unfold buf. rewrite substring_prefix. reflexivity.
Qed.

Lemma write_loop_run F h rng (l : list float) k : forall i buf,
  contents h rng = Some l -> (i + k <= length l)%nat ->
  write_loop F rng (Z.of_nat i) k buf h = Ok (buf +:+ commas F (take k (drop i l))) h.
Proof.
  induction k as [|k IH]; intros i buf Hl Hlen; simpl.
  - unfold ret. f_equal. simpl. symmetry. apply string_app_empty_r.
  - destruct (lookup_lt_is_Some_2 l i ltac:(lia)) as [v Hv].
    assert (Hlv : l !! Z.to_nat (Z.of_nat i) = Some v) by (rewrite Nat2Z.id; exact Hv).
    rewrite (bind_ok _ _ _ _ _ (load_run _ _ _ _ _ Hl (Nat2Z.is_nonneg i) Hlv)).
    replace (Z.of_nat i + 1) with (Z.of_nat (S i)) by lia.
    rewrite IH by (try assumption; lia).
    rewrite (drop_S l v i Hv). simpl. f_equal.
    rewrite !string_app_assoc. reflexivity.
Qed.

Lemma commas_join F v (l : list float) :
  commas F (v :: l) = comma_join F v l +:+ ",".
Proof.
  revert v. induction l as [|x l IH]; intros v.
  - simpl. rewrite string_app_assoc. reflexivity.
  - change (commas F (v :: x :: l)) with ((FormatFloat F v +:+ ",") +:+ commas F (x :: l)).
    rewrite IH. simpl comma_join. rewrite !string_app_assoc. reflexivity.
Qed.

(** X15.  [String] renders the key, the start, the end, the step and the
    length, then a space and the formatted samples separated by commas, with
    no comma after the last one.  For a series without samples the byte that
    is cut off at the end is the space: the text stops after the length. *)
Theorem TimeSeries_String_renders F h p s l :
  series_at h p s l ->
  TimeSeries_String F p h =
    Ok (header F s (Z.of_nat (length l)) +:+ samples_text F l) h.
Proof.
  intros [Hp Hl]. unfold TimeSeries_String.
  rewrite (bind_ok _ _ _ _ _ (getTS_run _ _ _ Hp)). cbv zeta.
  rewrite (bind_ok _ _ _ _ _ (len_run _ _ _ Hl)).
  rewrite (bind_ok _ _ _ _ _ (len_run _ _ _ Hl)).
  rewrite (bind_ok _ _ _ _ _ (len_run _ _ _ Hl)).
  rewrite Nat2Z.id. change 0 with (Z.of_nat 0).
  rewrite (bind_ok _ _ _ _ _ (write_loop_run F h _ l (length l) 0%nat _ Hl ltac:(lia))).
  rewrite drop_0, firstn_all.
  change ("" +:+ key s) with (key s).
  fold (end_of s (Z.of_nat (length l))). fold (header F s (Z.of_nat (length l))).
  destruct l as [|v l'].
  - simpl commas. simpl samples_text.
    rewrite !string_app_empty_r.
    apply Truncate_last.
  - rewrite commas_join. unfold samples_text.
    rewrite <- !string_app_assoc.
    apply Truncate_last.
Qed.

Lemma TimeSeries_String_renders_witness :
  TimeSeries_String marks 0%nat sample_heap =
    Ok "x Start: T End: T Step: D Length: N F,F,F" sample_heap.
Proof.
  apply (TimeSeries_String_renders marks sample_heap 0%nat sample_series
           [1%float; 2%float; 3%float]).
  vm_compute. split; reflexivity.
Defined.

(** ** Point update at work, and what reading never does *)

Lemma SetAt_positive_step_witness :
  (exists h', SetAt 0%nat 1015 9%float sample_heap = Ok true h' /\
              series_at h' 0%nat sample_series [1%float; 9%float; 3%float] /\
              GetAt 0%nat 1015 h' = Ok (9%float, true) h') /\
  SetAt 0%nat 1025 9%float sample_heap = Ok false sample_heap.
Proof.
  split.
  - destruct (SetAt_positive_step sample_heap 0%nat sample_series
                [1%float; 2%float; 3%float] 1015 9%float) as [Hin _].
    + vm_compute. split; reflexivity.
    + unfold Int64.max. simpl. lia.
    + apply Hin. vm_compute. split; congruence.
  - destruct (SetAt_positive_step sample_heap 0%nat sample_series
                [1%float; 2%float; 3%float] 1025 9%float) as [_ Hout].
    + vm_compute. split; reflexivity.
    + unfold Int64.max. simpl. lia.
    + apply Hout. vm_compute. intros [_ H]. apply H. reflexivity.
Defined.

Lemma GetAt_heap p t h r h' : GetAt p t h = Ok r h' -> h' = h.
Proof.
  unfold GetAt, bind.
  destruct (index p t h) as [i h1|msg] eqn:Hi; [|discriminate].
  apply index_heap in Hi. subst h1.
  destruct (i =? -1); [unfold ret; congruence|].
  unfold getTS. destruct (objs h !! p) as [s|]; [|discriminate].
  unfold load. destruct (contents h (data s)) as [l|]; [|discriminate].
  destruct (l !! Z.to_nat i); [|discriminate].
  destruct (in_bounds i l); [|discriminate]. unfold ret. congruence.
Qed.

Lemma End_heap p h e h' : End p h = Ok e h' -> h' = h.
Proof.
  unfold End, bind, getTS, len, ret.
  destruct (objs h !! p) as [s|]; [|discriminate].
  destruct (contents h (data s)); [|discriminate]. congruence.
Qed.

Lemma modIt_frame it f h h' :
  modIt it f h = Ok tt h' -> objs h' = objs h /\ arrs h' = arrs h.
Proof.
  unfold modIt. destruct (iters h !! it); [|discriminate].
  intros E. injection E as <-. split; reflexivity.
Qed.

Lemma keeps_bind {A B} (m : M A) (k : A -> M B) :
  keeps_series m -> (forall a, keeps_series (k a)) -> keeps_series (bind m k).
Proof.
  intros Hm Hk h r h'. unfold bind.
  destruct (m h) as [a h1|] eqn:E; [|discriminate].
  intros Ek. destruct (Hm _ _ _ E) as [Ho Ha]. destruct (Hk a _ _ _ Ek) as [Ho' Ha'].
  split; congruence.
Qed.

Lemma keeps_ret {A} (a : A) : keeps_series (ret a).
Proof. intros h r h' E. injection E as _ <-. split; reflexivity. Qed.

Lemma keeps_getIt it : keeps_series (getIt it).
Proof.
  intros h r h'. unfold getIt. destruct (iters h !! it); [|discriminate].
  intros E. injection E as _ <-. split; reflexivity.
Qed.

Lemma keeps_getTS p : keeps_series (getTS p).
Proof.
  intros h r h'. unfold getTS. destruct (objs h !! p); [|discriminate].
  intros E. injection E as _ <-. split; reflexivity.
Qed.

Lemma keeps_modIt it f : keeps_series (modIt it f).
Proof. intros h [] h' E. eapply modIt_frame, E. Qed.

Lemma keeps_GetAt p t : keeps_series (GetAt p t).
Proof. intros h r h' E. apply GetAt_heap in E. subst. split; reflexivity. Qed.

Lemma keeps_End p : keeps_series (End p).
Proof. intros h r h' E. apply End_heap in E. subst. split; reflexivity. Qed.

Ltac keeps_all :=
  repeat first
    [ apply keeps_ret | apply keeps_getIt | apply keeps_getTS | apply keeps_modIt
    | apply keeps_GetAt | apply keeps_End
    | apply keeps_bind; [|intros ?] ].

(** X17.  Iterating never writes to a series: whenever [Next] or [Last], of
    either iterator, returns, every series object and every backing array
    of the heap is what it was; only iterator objects can have changed. *)
Theorem Iterators_never_write_series it :
  keeps_series (Next it) /\ keeps_series (Last it) /\
  keeps_series (IteratorTimeValue_Next it) /\
  keeps_series (IteratorTimeValue_Last it).
Proof.
  unfold Next, Last, IteratorTimeValue_Next, IteratorTimeValue_Last.
  split; [|split; [|split]]; cbv zeta; keeps_all.
Qed.

(** * The statements in exact arithmetic *)

(** ** Point lookup *)

(** C1, amended.  For a series with positive step and [n] samples such that
    [(n-1)*step] does not overflow [int64], [GetAt t] returns
    [(data[trunc((t - start) / step)], true)] exactly when
    [start <= t <= start + (n-1)*step] and [(NaN, false)] for every other
    [t]; an in-range [t] snaps to the sample at or before it. *)
Theorem GetAt_in_exact_range h p s l t :
  series_at h p s l -> 0 < step s <= Int64.max ->
  Int64.InRange ((Z.of_nat (length l) - 1) * step s) ->
  reads_exactly_in_range h p s l t.
Proof.
  intros Hat Hs Hfit. unfold reads_exactly_in_range.
  rewrite <- (last_sample_exact s _ Hfit). split.
  - intros Ht.
    destruct (index_of_in s _ t Hs (Nat2Z.is_nonneg _) Ht) as (_ & Hb & Hsnap).
    split; [exact Hb|]. split; [|exact Hsnap].
    destruct (in_bounds_lookup _ l Hb) as [v Hv].
    exists v. split; [exact Hv|]. eapply GetAt_run_in; eassumption.
  - intros Ht. eapply GetAt_run_out; [eassumption|lia|exact Ht].
Qed.

Lemma GetAt_in_exact_range_witness :
  reads_exactly_in_range sample_heap 0%nat sample_series
    [1%float; 2%float; 3%float] 1015.
Proof.
  apply (GetAt_in_exact_range sample_heap 0%nat sample_series
           [1%float; 2%float; 3%float] 1015).
  - vm_compute. split; reflexivity.
  - unfold Int64.max. simpl. lia.
  - unfold Int64.InRange, Int64.min, Int64.max. simpl. lia.
Defined.

(** C1 as stated fails when [(n-1)*step] overflows: on the series of three
    samples 2^62 ns apart the timestamp [start] lies in
    [start .. start + 2*2^62], yet [GetAt(start)] returns [(NaN, false)],
    because [index] computes the last timestamp as [start - 2^63]. *)
Lemma GetAt_overflow_counterexample :
  series_at wide_step_heap 0%nat (mkTimeSeries "k" 100 (2 ^ 62) (Some 1%nat) nan)
    [1%float; 2%float; 3%float] /\
  0 < 2 ^ 62 <= Int64.max /\
  ~ reads_exactly_in_range wide_step_heap 0%nat
      (mkTimeSeries "k" 100 (2 ^ 62) (Some 1%nat) nan)
      [1%float; 2%float; 3%float] 100.
Proof.
  split; [exact wide_step_heap_series|]. split; [unfold Int64.max; lia|].
  intros [Hin _]. destruct Hin as (_ & (v & _ & Hg) & _).
  - simpl. lia.
  - vm_compute in Hg. discriminate Hg.
Qed.

(** X16.  Point update on a series with positive step and [(n-1)*step]
    within [int64]: [SetAt(t, v)] with
    [start <= t <= start + (n-1)*step] replaces exactly the sample at index
    [trunc((t - start) / step)], returns [true], and [GetAt(t)] then returns
    [(v, true)]; for any other [t] it returns [false] and changes nothing. *)
Theorem SetAt_in_exact_range h p s l t v :
  series_at h p s l -> 0 < step s <= Int64.max ->
  Int64.InRange ((Z.of_nat (length l) - 1) * step s) ->
  writes_exactly_in_range h p s l t v.
Proof.
  intros Hat Hs Hfit. unfold writes_exactly_in_range.
  rewrite <- (last_sample_exact s _ Hfit).
  exact (SetAt_positive_step h p s l t v Hat Hs).
Qed.

Lemma SetAt_in_exact_range_witness :
  writes_exactly_in_range sample_heap 0%nat sample_series
    [1%float; 2%float; 3%float] 1015 9%float.
Proof.
  apply (SetAt_in_exact_range sample_heap 0%nat sample_series
           [1%float; 2%float; 3%float] 1015 9%float).
  - vm_compute. split; reflexivity.
  - unfold Int64.max. simpl. lia.
  - unfold Int64.InRange, Int64.min, Int64.max. simpl. lia.
Defined.

(** ** Extension to a timestamp *)

(** C7, amended.  For a series with positive step and a timestamp [t] with
    [t + step - End()] within a [Duration]: if [t] precedes [End()],
    [ExtendTo t] changes nothing; otherwise, [t = End()] included, it
    appends exactly [trunc((t + step - End()) / step)] samples equal to the
    filler and leaves key, start, step and filler as they were. *)
Theorem ExtendTo_exact_count h p s l t :
  series_at h p s l -> 0 < step s <= Int64.max ->
  t + step s - end_of s (Z.of_nat (length l)) <= Int64.max ->
  extends_to h p s l t.
Proof.
  intros Hat Hs Hfit.
  destruct (ExtendTo_appends_fillers h p s l t Hat Hs) as (HEnd & Hlt & Hge).
  exists (end_of s (Z.of_nat (length l))). split; [exact HEnd|]. split; [exact Hlt|].
  intros Hle. destruct (Hge Hle) as (_ & h' & Hrun & Hext).
  exists h'. split; [exact Hrun|].
  unfold Time.Sub, Time.Add in Hext.
  rewrite sat_id in Hext; [exact Hext|].
  unfold Int64.InRange, Int64.min, Int64.max in *. lia.
Qed.

Lemma ExtendTo_exact_count_witness :
  extends_to sample_heap 0%nat sample_series [1%float; 2%float; 3%float] 1045.
Proof.
  apply (ExtendTo_exact_count sample_heap 0%nat sample_series
           [1%float; 2%float; 3%float] 1045).
  - vm_compute. split; reflexivity.
  - unfold Int64.max. simpl. lia.
  - vm_compute. congruence.
Defined.

Lemma wide_empty_heap_series :
  series_at wide_empty_heap 0%nat (mkTimeSeries "k" 100 (2 ^ 62) (Some 0%nat) nan) [].
Proof. vm_compute. split; reflexivity. Qed.

(** C7 as stated fails when [t + step - End()] exceeds a [Duration]: on the
    empty series with step 2^62 ns and [End() = 100], [ExtendTo(100 + 2^63)]
    appends one sample, since [time.Sub] saturates at 2^63 - 1, where
    [trunc((2^63 + 2^62) / 2^62)] is 3. *)
Lemma ExtendTo_saturation_counterexample :
  series_at wide_empty_heap 0%nat (mkTimeSeries "k" 100 (2 ^ 62) (Some 0%nat) nan) [] /\
  0 < 2 ^ 62 <= Int64.max /\
  ~ extends_to wide_empty_heap 0%nat
      (mkTimeSeries "k" 100 (2 ^ 62) (Some 0%nat) nan) [] (100 + 2 ^ 63).
Proof.
  split; [exact wide_empty_heap_series|]. split; [unfold Int64.max; lia|].
  intros (e & HEnd & _ & Hge).
  vm_compute in HEnd. injection HEnd as <-.
  destruct Hge as (h' & Hrun & s' & [Hp Hl] & _); [lia|].
  vm_compute in Hrun. injection Hrun as <-.
  vm_compute in Hp. injection Hp as <-.
  vm_compute in Hl. discriminate Hl.
Qed.

(** ** Uniform fill *)

Lemma new_size_exact now start_ end_ step_ values :
  eff_start now start_ <= eff_end now start_ end_ step_ values ->
  eff_end now start_ end_ step_ values - eff_start now start_ <= Int64.max ->
  new_size now start_ end_ step_ values =
    Z.quot (eff_end now start_ end_ step_ values - eff_start now start_) step_.
Proof.
  intros Hle Hfit. unfold new_size, Time.Sub.
  rewrite sat_id by (unfold Int64.InRange, Int64.min, Int64.max in *; lia).
  apply wrap_id.
  pose proof (quot_nonneg_bounds
                (eff_end now start_ end_ step_ values - eff_start now start_) step_
                ltac:(lia)).
  unfold Int64.InRange, Int64.min, Int64.max in *. lia.
Qed.

(** C4, amended.  For a call with exactly one value [v] and a non-zero
    step, let [start'] be [start], or the current time when [start] is the
    zero timestamp, and [end'] be [end], or [start' + step] when [end] is the
    zero timestamp and precedes it.  If [start' <= end'], [end' - start']
    fits a [Duration] and [trunc((end' - start') / step)] is not negative,
    the series has exactly [trunc((end' - start') / step)] samples, all equal
    to [v].  In particular [NewTimeSeries("x", t0, t0+5*step, step, 7.0)]
    with [t0] and [t0+5*step] not the zero timestamp, a positive step and
    [5*step] within a [Duration] has 5 samples, all 7.0. *)
Theorem NewTimeSeries_uniform_fill_exact now h :
  (forall key_ start_ end_ step_ v,
     step_ <> 0 ->
     eff_start now start_ <= eff_end now start_ end_ step_ [v] ->
     eff_end now start_ end_ step_ [v] - eff_start now start_ <= Int64.max ->
     0 <= Z.quot (eff_end now start_ end_ step_ [v] - eff_start now start_) step_ ->
     uniform_fill now h key_ start_ end_ step_ v
       (Z.quot (eff_end now start_ end_ step_ [v] - eff_start now start_) step_)) /\
  (forall t0 step_,
     t0 <> Time.zero -> t0 + 5 * step_ <> Time.zero ->
     0 < step_ -> 5 * step_ <= Int64.max ->
     uniform_fill now h "x" t0 (t0 + 5 * step_) step_ 7%float 5).
Proof.
  split.
  - intros key_ start_ end_ step_ v Hstep Hle Hfit Hsize.
    pose proof (new_size_exact now start_ end_ step_ [v] Hle Hfit) as Hn.
    destruct (NewTimeSeries_single_value now h key_ start_ end_ step_ v Hstep Hle)
      as (p & a & h' & Hrun & Hat); [rewrite Hn; exact Hsize|].
    rewrite Hn in Hat.
    eexists p, h', _, _. split; [exact Hrun|]. split; [exact Hat|].
    rewrite length_replicate. split; [lia|reflexivity].
  - intros t0 step_. apply NewTimeSeries_five_sevens.
Qed.

Lemma NewTimeSeries_uniform_fill_exact_witness :
  uniform_fill 2000 empty_heap "x" 1000 1050 10 7%float 5 /\
  uniform_fill 2000 empty_heap "x" 1000 (1000 + 5 * 10) 10 7%float 5.
Proof.
  split.
  - apply (proj1 (NewTimeSeries_uniform_fill_exact 2000 empty_heap)
             "x" 1000 1050 10 7%float); vm_compute; congruence.
  - apply (proj2 (NewTimeSeries_uniform_fill_exact 2000 empty_heap) 1000 10);
      vm_compute; congruence.
Defined.

(** C4 as stated fails in two ways.  When [start] is the zero timestamp the
    series starts at the current time: [NewTimeSeries("x", time.Time{},
    1050, 10, 7.0)] at time 1000 has 5 samples, not 105.  When
    [end - start] exceeds a [Duration], [time.Sub] saturates:
    [NewTimeSeries("x", 1, 1 + 5*2^61, 2^61, 7.0)] has 3 samples, not 5. *)
Lemma uniform_fill_counterexamples :
  ((10 <> 0 /\ Time.zero <= 1050) /\
   ~ uniform_fill 1000 empty_heap "x" Time.zero 1050 10 7%float
       (Z.quot (1050 - Time.zero) 10)) /\
  ((2 ^ 61 <> 0 /\ 1 <= 1 + 5 * 2 ^ 61) /\
   Z.quot (1 + 5 * 2 ^ 61 - 1) (2 ^ 61) = 5 /\
   ~ uniform_fill 1000 empty_heap "x" 1 (1 + 5 * 2 ^ 61) (2 ^ 61) 7%float 5).
Proof.
  split; [exact uniform_fill_zero_start_counterexample|].
  split; [split; lia|]. split; [reflexivity|].
  intros (p & h' & s & l & Hrun & [Hp Hl] & Hlen & _).
  vm_compute in Hrun. injection Hrun as <- <-.
  vm_compute in Hp. injection Hp as <-.
  vm_compute in Hl. injection Hl as <-.
  vm_compute in Hlen. discriminate.
Qed.

(** ** The errors of construction *)

